(** * Custom array methods: customMap, customFilter, customFind,
      customPush and customPop

    A shallow embedding of the five prototype methods of the repository
    (src/array/map/map.ts, src/array/filter/filter.ts, src/array/find/find.ts,
    src/array/push/push.ts, src/array/pop/pop.ts) and of the earlier
    customMap of map.ts, with the properties the specification states about
    them.

    Modelling choices.
    - A JavaScript array is a [list (option value)]: position [i] holds
      [Some v] when index [i] is present with value [v] and [None] when it
      is a hole; [length] is the length of the list, which for an array
      is at most [2^32 - 1].  Only index properties are modelled.
    - Values are the primitive values; numbers are the safe integers.
    - The receiver [this] lives in a store that the callback shares with
      the method: the callback gets the live array as its third argument,
      so it is a function on the store and may read and write the array
      and its own captured variables.
    - Methods run in a state-and-exception monad over a machine that holds
      the store and the trace of callback invocations.  The arrays a method
      builds and returns are values of their own, outside the store. *)

From stdpp Require Import base strings list numbers pretty sorting.

Set Default Proof Using "Type".

(** ** Values *)

(** Numbers are the safe integers, from [-(2^53 - 1)] to [2^53 - 1]: the
    integers that a JavaScript number holds exactly and prints in decimal
    notation. *)
Definition safe_integer (n : Z) : bool := (Z.abs n <=? 9007199254740991)%Z.

Record number : Type := Number {
  number_val : Z;
  number_safe : Is_true (safe_integer number_val)
}.

Definition number_of_Z (n : Z) : option number :=
  match decide (Is_true (safe_integer n)) with
  | left H => Some (Number n H)
  | right _ => None
  end.

Declare Scope number_scope.
Delimit Scope number_scope with num.
Bind Scope number_scope with number.
Number Notation number number_of_Z number_val : number_scope.

Lemma number_eq (a b : number) : number_val a = number_val b → a = b.
Proof.
  destruct a as [x Hx], b as [y Hy]. simpl. intros ->.
  f_equal. apply proof_irrel.
Qed.

Global Instance number_eq_dec : EqDecision number.
Proof.
  intros a b. destruct (decide (number_val a = number_val b)) as [H|H].
  - left. by apply number_eq.
  - right. by intros ->.
Defined.

Inductive value : Type :=
  | VUndefined
  | VNull
  | VBool (b : bool)
  | VNum (n : number)
  | VStr (s : string).

Global Instance value_eq_dec : EqDecision value.
Proof. solve_decision. Defined.

(** ToBoolean, as applied by [if (currentItem)]. *)
Definition truthy (v : value) : bool :=
  match v with
  | VUndefined | VNull => false
  | VBool b => b
  | VNum n => negb (number_val n =? 0)%Z
  | VStr s => negb (String.eqb s EmptyString)
  end.

(** ToString, as applied by the template literal [`${callback}`]. *)
Definition to_string (v : value) : string :=
  match v with
  | VUndefined => "undefined"
  | VNull => "null"
  | VBool true => "true"
  | VBool false => "false"
  | VNum n => pretty (number_val n)
  | VStr s => s
  end.

(** ** Arrays *)

Abbreviation array := (list (option value)).

(** [index in arr] *)
Definition index_in (index : nat) (arr : array) : bool :=
  match arr !! index with
  | Some (Some _) => true
  | _ => false
  end.

(** [arr[index]] as an expression: a hole or an index out of range reads
    as [undefined]. *)
Definition js_get (arr : array) (index : nat) : value :=
  match arr !! index with
  | Some (Some v) => v
  | _ => VUndefined
  end.

(** The greatest length of an array, [2^32 - 1]; the array indices are the
    numbers below it. *)
Definition max_length : Z := 4294967295.

Definition is_array_index (index : nat) : bool :=
  (Z.of_nat index <? max_length)%Z.

(** [arr[index] = v]: in range the slot is overwritten; at an array index
    out of range the array is extended, the indices in between being
    holes.  From [2^32 - 1] on the key is no array index: the assignment
    makes an ordinary property, which is outside the model, and the
    elements and the length stay as they are. *)
Definition js_set (arr : array) (index : nat) (v : value) : array :=
  if decide (index < length arr)
  then <[index := Some v]> arr
  else if is_array_index index
  then arr ++ replicate (index - length arr) None ++ [Some v]
  else arr.

(** [arr.length = n], for [n] up to [2^32 - 1]: truncation, or extension
    by holes. *)
Definition set_length (arr : array) (n : nat) : array :=
  take n arr ++ replicate (n - length arr) None.

(** [new Array(n)]: [n] holes. *)
Definition new_Array (n : nat) : array := replicate n None.

(** The native [push] of one element, used on the local result arrays. *)
Definition native_push (arr : array) (v : value) : array := arr ++ [Some v].

(** ** Completions *)

Inductive exn : Type :=
  | TypeError (msg : string)
  | Thrown (v : value).

Inductive completion (A : Type) : Type :=
  | Normal (a : A)
  | Throw (e : exn).
Global Arguments Normal {A} a.
Global Arguments Throw {A} e.

(** One callback invocation: the call-context and the first two arguments
    (the third is always the receiver). *)
Record call : Type := Call {
  call_this : value;
  call_value : value;
  call_index : nat
}.

Section Methods.

(** The variables a callback captures. *)
Context {G : Type}.

Record store : Type := Store {
  this_arr : array;
  env : G
}.

(** A function value: call-context, element, index, and the store through
    which it reaches the array it is passed. *)
Definition fn : Type :=
  value → value → nat → store → completion value * store.

(** What a caller may pass as [callback]: a function; a primitive that is
    not one; a symbol; or an object that is not a function and has no
    [call] method.  All that the methods do with such an object is to
    convert it to a string, which runs its [toString] or [valueOf]: a
    computation on the store, which may write the array or throw. *)
Inductive arg : Type :=
  | Fn (f : fn)
  | NotFn (v : value)
  | NotFnSymbol
  | NotFnObject (conv : store → completion string * store).

Definition typeof (callback : arg) : string :=
  match callback with
  | Fn _ => "function"
  | NotFn VUndefined => "undefined"
  | NotFn VNull => "object"
  | NotFn (VBool _) => "boolean"
  | NotFn (VNum _) => "number"
  | NotFn (VStr _) => "string"
  | NotFnSymbol => "symbol"
  | NotFnObject _ => "object"
  end.

Record machine : Type := Machine {
  heap : store;
  trace : list call
}.

(** ** The monad of method bodies *)

Definition M (A : Type) : Type := machine → completion A * machine.

Definition ret {A} (a : A) : M A := λ m, (Normal a, m).

Definition throw {A} (e : exn) : M A := λ m, (Throw e, m).

Definition bind {A B} (c : M A) (k : A → M B) : M B :=
  λ m, match c m with
       | (Normal a, m') => k a m'
       | (Throw e, m') => (Throw e, m')
       end.

Notation "'let*' x := c 'in' k" := (bind c (λ x, k))
  (at level 10, x name, c at level 100, k at level 200, only parsing).
Notation "c ;; k" := (bind c (λ _, k))
  (at level 100, k at level 200, right associativity, only parsing).

(** [this] as an expression, and assignment through [this]. *)
Definition get_this : M array := λ m, (Normal (this_arr (heap m)), m).

Definition put_this (arr : array) : M unit :=
  λ m, (Normal (), Machine (Store arr (env (heap m))) (trace m)).

(** [`${callback}`].  A primitive has its string, a symbol cannot be
    converted, and an object runs its conversion on the store.  The source
    text of a function is not modelled; the methods convert the callback
    only after [typeof] has ruled a function out. *)
Definition arg_to_string (callback : arg) : M string :=
  match callback with
  | Fn _ => ret "function"
  | NotFn v => ret (to_string v)
  | NotFnSymbol =>
      throw (TypeError "Cannot convert a Symbol value to a string")
  | NotFnObject conv =>
      λ m, let (r, h) := conv (heap m) in (r, Machine h (trace m))
  end.

(** Invocation of a function value: the call is recorded, then the body
    runs on the store. *)
Definition invoke (f : fn) (thisArg v : value) (index : nat) : M value :=
  λ m, let (r, h) := f thisArg v index (heap m) in
       (r, Machine h (trace m ++ [Call thisArg v index])).

(** [callback.call(thisArg, v, index, currentArray)].  On [undefined] and
    [null] the property access fails; on the other primitives, on a symbol
    and on an object without a [call] method, [call] is [undefined] and
    the invocation fails; both are engine TypeErrors. *)
Definition method_call (callback : arg) (thisArg v : value) (index : nat)
  : M value :=
  match callback with
  | Fn f => invoke f thisArg v index
  | NotFn VUndefined =>
      throw (TypeError "Cannot read properties of undefined (reading 'call')")
  | NotFn VNull =>
      throw (TypeError "Cannot read properties of null (reading 'call')")
  | NotFn _ | NotFnSymbol | NotFnObject _ =>
      throw (TypeError "callback.call is not a function")
  end.

(** [callback(v, index, currentArray)]: a plain call, whose call-context
    is [undefined]. *)
Definition plain_call (callback : arg) (v : value) (index : nat) : M value :=
  match callback with
  | Fn f => invoke f VUndefined v index
  | NotFn _ | NotFnSymbol | NotFnObject _ =>
      throw (TypeError "callback is not a function")
  end.

(** ** customMap (map.ts, the current definition) *)

(** The loop [for (let index = 0; index < length; index++)], by recursion
    on the number [n = length - index] of iterations left. *)
Fixpoint customMap_loop (callback : arg) (thisArg : value)
    (n index : nat) (newArr : array) : M array :=
  match n with
  | 0 => ret newArr
  | S n' =>
      let* currentArray := get_this in
      if index_in index currentArray then
        let* currentItem :=
          method_call callback thisArg (js_get currentArray index) index in
        customMap_loop callback thisArg n' (S index)
          (js_set newArr index currentItem)
      else customMap_loop callback thisArg n' (S index) newArr
  end.

Definition customMap (callback : arg) (thisArg : value) : M array :=
  if negb (String.eqb (typeof callback) "function") then
    let* shown := arg_to_string callback in
    throw (TypeError (shown +:+ " is not a function"%string))
  else
    let* this := get_this in
    let newArr := new_Array (length this) in
    let* currentArray := get_this in
    let length := length currentArray in
    customMap_loop callback thisArg length 0 newArr.

(** ** customMap (map.ts, the earlier definition: no check of the callback,
       no test for holes, a plain call, results pushed) *)

Fixpoint customMap2_loop (callback : arg) (n index : nat) (newArr : array)
  : M array :=
  match n with
  | 0 => ret newArr
  | S n' =>
      let* currentArray := get_this in
      let* currentItem :=
        plain_call callback (js_get currentArray index) index in
      customMap2_loop callback n' (S index) (native_push newArr currentItem)
  end.

Definition customMap2 (callback : arg) : M array :=
  let newArr : array := [] in
  let* currentArray := get_this in
  let length := length currentArray in
  customMap2_loop callback length 0 newArr.

(** ** customFilter (filter.ts) *)

Fixpoint customFilter_loop (callback : arg) (thisArg : value)
    (n index : nat) (newArr : array) : M array :=
  match n with
  | 0 => ret newArr
  | S n' =>
      let* currentArray := get_this in
      if index_in index currentArray then
        let* currentItem :=
          method_call callback thisArg (js_get currentArray index) index in
        if truthy currentItem then
          let* currentArray := get_this in
          customFilter_loop callback thisArg n' (S index)
            (native_push newArr (js_get currentArray index))
        else customFilter_loop callback thisArg n' (S index) newArr
      else customFilter_loop callback thisArg n' (S index) newArr
  end.

Definition customFilter (callback : arg) (thisArg : value) : M array :=
  if negb (String.eqb (typeof callback) "function") then
    let* shown := arg_to_string callback in
    throw (TypeError (shown +:+ " is not a function"%string))
  else
    let newArr : array := [] in
    let* currentArray := get_this in
    let length := length currentArray in
    customFilter_loop callback thisArg length 0 newArr.

(** ** customFind (find.ts) *)

Fixpoint customFind_loop (callback : arg) (thisArg : value)
    (n index : nat) : M value :=
  match n with
  | 0 => ret VUndefined
  | S n' =>
      let* currentArray := get_this in
      if index_in index currentArray then
        let* currentItem :=
          method_call callback thisArg (js_get currentArray index) index in
        if truthy currentItem then
          let* currentArray := get_this in
          ret (js_get currentArray index)
        else customFind_loop callback thisArg n' (S index)
      else customFind_loop callback thisArg n' (S index)
  end.

Definition customFind (callback : arg) (thisArg : value) : M value :=
  let* currentArray := get_this in
  let length := length currentArray in
  customFind_loop callback thisArg length 0.

(** ** customPush (push.ts) *)

(** [args[index]] on the rest-parameter array, which is dense. *)
Definition args_get (args : list value) (index : nat) : value :=
  default VUndefined (args !! index).

(** [for (let index = 0; index < args.length; index++)], by recursion on
    the number [n = args.length - index] of iterations left. *)
Fixpoint customPush_loop (args : list value) (n index : nat) : M unit :=
  match n with
  | 0 => ret ()
  | S n' =>
      let* currentArray := get_this in
      put_this (js_set currentArray (length currentArray) (args_get args index));;
      customPush_loop args n' (S index)
  end.

Definition customPush (args : list value) : M nat :=
  customPush_loop args (length args) 0;;
  let* currentArray := get_this in
  ret (length currentArray).

(** ** customPop (pop.ts) *)

Definition customPop : M value :=
  let* this := get_this in
  if 0 <? length this then
    let lastElement := js_get this (length this - 1) in
    put_this (set_length this (length this - 1));;
    ret lastElement
  else ret VUndefined.

End Methods.

Arguments store : clear implicits.
Arguments fn : clear implicits.
Arguments arg : clear implicits.
Arguments machine : clear implicits.
Arguments M : clear implicits.

(** * Properties *)

(** ** Present elements and pure callbacks *)

(** The present indices of an array with their values, in ascending order
    of index; [index] is the index of the head of [src]. *)
Fixpoint present_from (index : nat) (src : array) : list (nat * value) :=
  match src with
  | [] => []
  | Some v :: src' => (index, v) :: present_from (S index) src'
  | None :: src' => present_from (S index) src'
  end.

Definition present (src : array) : list (nat * value) := present_from 0 src.

(** The invocations that visit the entries [l] with call-context
    [thisArg]. *)
Definition calls_of (thisArg : value) (l : list (nat * value)) : list call :=
  (λ iv, Call thisArg iv.2 iv.1) <$> l.

(** An array without holes. *)
Definition dense (src : array) : Prop := ∀ i, i < length src → index_in i src = true.

Section Notions.

Context {G : Type}.

Implicit Types (src newArr : array) (e : G) (t : list call) (thisArg v : value).

(** A callback without side effects: its result is a function of the
    call-context, the element, the index and the array it is passed. *)
Definition pure_fn (f : value → value → nat → array → value) : fn G :=
  λ thisArg v index h, (Normal (f thisArg v index (this_arr h)), h).

(** What customMap computes with a pure callback. *)
Definition map_result (f : value → value → nat → array → value)
    thisArg src : array :=
  imap (λ i o, (λ v, f thisArg v i src) <$> o) src.

(** The entries a pure predicate selects. *)
Definition selects (p : value → value → nat → array → value)
    thisArg src (iv : nat * value) : bool :=
  truthy (p thisArg iv.2 iv.1 src).

(** A callback that leaves the array it is passed as it found it, on every
    invocation; a primitive or a symbol cannot touch it, and of an object
    it is the conversion to a string that leaves it as it found it. *)
Definition preserves_array (callback : arg G) : Prop :=
  match callback with
  | Fn f => ∀ thisArg v index h, this_arr (f thisArg v index h).2 = this_arr h
  | NotFn _ | NotFnSymbol => True
  | NotFnObject conv => ∀ h, this_arr (conv h).2 = this_arr h
  end.

(** A callback whose conversion to a string is quiet: it leaves the store
    as it found it and throws nothing but a TypeError.  The conversion of
    a primitive is a constant and that of a symbol throws a TypeError; of
    an object it is what its [toString] does. *)
Definition converts_quietly (callback : arg G) : Prop :=
  match callback with
  | NotFnObject conv =>
      ∀ h, (conv h).2 = h ∧
           match (conv h).1 with
           | Normal _ | Throw (TypeError _) => True
           | Throw (Thrown _) => False
           end
  | _ => True
  end.

(** A computation that leaves the receiver as it found it. *)
Definition frames {A} (c : M G A) : Prop :=
  ∀ m, this_arr (heap (c m).2) = this_arr (heap m).

(** A computation that invokes the callback at most [b] times. *)
Definition invokes_at_most {A} (b : nat) (c : M G A) : Prop :=
  ∀ m, length (trace (c m).2) ≤ length (trace m) + b.

(** A function that does not look at its call-context. *)
Definition ignores_this (f : fn G) : Prop :=
  ∀ thisArg thisArg' v index h, f thisArg v index h = f thisArg' v index h.

(** A function that removes no element of the array it is passed: an index
    that is present when it is invoked is present when it returns. *)
Definition keeps_elements (f : fn G) : Prop :=
  ∀ thisArg v index h j,
    index_in j (this_arr h) = true →
    index_in j (this_arr (f thisArg v index h).2) = true.

(** What the earlier customMap computes with a pure callback, and the
    invocations it makes. *)
Definition map2_result (f : value → value → nat → array → value) src : array :=
  imap (λ i o, Some (f VUndefined (default VUndefined o) i src)) src.

Definition map2_calls src : list call :=
  imap (λ i o, Call VUndefined (default VUndefined o) i) src.

(** A callback without side effects that may throw: it returns a value
    or raises, as a function of the call-context, the element, the index
    and the array it is passed. *)
Definition partial_fn (f : value → value → nat → array → completion value)
  : fn G :=
  λ thisArg v index h, (f thisArg v index (this_arr h), h).

(** Two computations that, started on the same store, end with the same
    completion and the same store; the traces they record may differ. *)
Definition same_effect {A} (c1 c2 : M G A) : Prop :=
  ∀ m1 m2, heap m1 = heap m2 →
    (c1 m1).1 = (c2 m2).1 ∧ heap (c1 m1).2 = heap (c2 m2).2.

(** A computation whose invocations all have the call-context [thisArg]
    and an index in [[k, k + n)], in strictly ascending order of index. *)
Definition visits {A} thisArg (k n : nat) (c : M G A) : Prop :=
  ∀ m, ∃ new,
    trace (c m).2 = trace m ++ new ∧
    StronglySorted lt (call_index <$> new) ∧
    Forall (λ c, k ≤ call_index c < k + n ∧ call_this c = thisArg) new.

(** Between the machines [m] and [m'] the callback was invoked with the
    call-context [thisArg] on indices below [n] only, in strictly ascending
    order of index. *)
Definition visited_below thisArg (n : nat) (m m' : machine G) : Prop :=
  ∃ new,
    trace m' = trace m ++ new ∧
    StronglySorted lt (call_index <$> new) ∧
    Forall (λ c, call_index c < n ∧ call_this c = thisArg) new.

(** What the loop of customPush makes of the array: the values are
    assigned in turn at the length the array then has. *)
Definition push_all (vs : list value) src : array :=
  foldl (λ arr v, js_set arr (length arr) v) src vs.

(** [n] calls of customPop in a row, with the values they return. *)
Fixpoint customPop_times (n : nat) : M G (list value) :=
  match n with
  | 0 => ret []
  | S n' =>
      bind customPop (λ v,
      bind (customPop_times n') (λ vs, ret (v :: vs)))
  end.

End Notions.

(** ** Callbacks and machines of the worked examples *)

(** [(x) => x] *)
Definition keep : value → value → nat → array → value := λ _ v _ _, v.

(** [(item) => item === w], on primitive values. *)
Definition equals (w : value) : value → value → nat → array → value :=
  λ _ v _ _, VBool (bool_decide (v = w)).

(** [(v, i, a) => { a[0] = 9; return v; }] *)
Definition overwrite_first : fn unit :=
  λ _ v _ h, (Normal v, Store (js_set (this_arr h) 0 (VNum 9)) (env h)).

(** [(v, i, a) => { a.length = 1; return v; }] *)
Definition truncate_to_one : fn unit :=
  λ _ v _ h, (Normal v, Store (set_length (this_arr h) 1) (env h)).

(** [(x) => { if (x === 2) throw "boom"; return x; }] *)
Definition boom_on_two : value → value → nat → array → completion value :=
  λ _ v _ _,
    if bool_decide (v = VNum 2) then Throw (Thrown (VStr "boom"))
    else Normal v.

(** A callback with a variable of its own:
    [let flag = ...; () => { const r = flag; flag = !flag; return r; }] *)
Definition toggle : fn bool :=
  λ _ _ _ h, (Normal (VBool (env h)), Store (this_arr h) (negb (env h))).

(** An object that is not a function:
    [{ toString() { a.length = 0; throw "boom"; } }], with [a] the array
    the method is called on. *)
Definition hostile_object : arg unit :=
  NotFnObject (λ h, (Throw (Thrown (VStr "boom")),
                     Store (set_length (this_arr h) 0) (env h))).

(** An object that is not a function and has the [toString] of
    [Object.prototype]. *)
Definition plain_object : arg unit :=
  NotFnObject (λ h, (Normal "[object Object]"%string, h)).

(** The machine in which a method starts on [src]: the callback captures
    nothing and nothing has been invoked. *)
Definition start (src : array) : machine unit := Machine (Store src ()) [].

Section Properties.

Context {G : Type}.

Implicit Types (src newArr : array) (e : G) (t : list call) (thisArg v : value).
Implicit Types (callback : arg G) (m : machine G).

Lemma elem_of_present_from k src i v :
  (i, v) ∈ present_from k src ↔ k ≤ i ∧ src !! (i - k) = Some (Some v).
Proof.
  revert k. induction src as [|[w|] src IH]; intros k; simpl.
  - rewrite elem_of_nil, lookup_nil. split; [done|]. by intros [_ ?].
  - rewrite elem_of_cons, IH. split.
    + intros [[= -> ->]|[Hk HS]].
      * by rewrite Nat.sub_diag.
      * split; [lia|]. by replace (i - k) with (S (i - S k)) by lia.
    + intros [Hk HS]. destruct (decide (i = k)) as [->|Hne].
      * rewrite Nat.sub_diag in HS. left. simpl in HS. congruence.
      * right. split; [lia|].
        by replace (i - k) with (S (i - S k)) in HS by lia.
  - rewrite IH. split.
    + intros [Hk HS]. split; [lia|].
      by replace (i - k) with (S (i - S k)) by lia.
    + intros [Hk HS]. destruct (decide (i = k)) as [->|Hne].
      * by rewrite Nat.sub_diag in HS.
      * split; [lia|]. by replace (i - k) with (S (i - S k)) in HS by lia.
Qed.

Lemma elem_of_present src i v : (i, v) ∈ present src ↔ src !! i = Some (Some v).
Proof.
  unfold present. rewrite elem_of_present_from, Nat.sub_0_r.
  split; [by intros [_ ?] | intros; split; [lia | done]].
Qed.

Lemma present_from_lb k src i v : (i, v) ∈ present_from k src → k ≤ i.
Proof. rewrite elem_of_present_from. by intros [? _]. Qed.

Lemma present_from_sorted k src : StronglySorted lt (present_from k src).*1.
Proof.
  revert k. induction src as [|[w|] src IH]; intros k; simpl.
  - constructor.
  - constructor; [apply IH|].
    apply Forall_forall. intros i [[i' v] [-> Hin]]%list_elem_of_fmap.
    apply present_from_lb in Hin. simpl. lia.
  - apply IH.
Qed.

Lemma present_sorted src : StronglySorted lt (present src).*1.
Proof. apply present_from_sorted. Qed.

Lemma present_from_drop k src o :
  src !! k = Some o →
  present_from k (drop k src) =
    match o with
    | Some v => (k, v) :: present_from (S k) (drop (S k) src)
    | None => present_from (S k) (drop (S k) src)
    end.
Proof. intros H. rewrite (drop_S _ _ _ H). by destruct o. Qed.

Lemma index_in_lookup src i o :
  src !! i = Some o → index_in i src = bool_decide (is_Some o).
Proof. unfold index_in. intros ->. by destruct o. Qed.

Lemma js_get_lookup src i v : src !! i = Some (Some v) → js_get src i = v.
Proof. unfold js_get. by intros ->. Qed.

Lemma map_result_length f thisArg src : length (map_result f thisArg src) = length src.
Proof. apply length_imap. Qed.

Lemma map_result_lookup f thisArg src i :
  map_result f thisArg src !! i = (λ o, (λ v, f thisArg v i src) <$> o) <$> src !! i.
Proof. unfold map_result. by rewrite list_lookup_imap. Qed.

(** ** customMap *)

Lemma customMap_loop_pure f thisArg src e n k t :
  n = length src - k → k ≤ length src →
  customMap_loop (Fn (pure_fn f)) thisArg n k
    (take k (map_result f thisArg src) ++ replicate n None)
    (Machine (Store src e) t)
  = (Normal (map_result f thisArg src),
     Machine (Store src e)
       (t ++ calls_of thisArg (present_from k (drop k src)))).
Proof.
  revert k t. induction n as [|n IH]; intros k t Hn Hk.
  - rewrite drop_ge by lia. rewrite take_ge by (rewrite map_result_length; lia).
    simpl. by rewrite !app_nil_r.
  - destruct (lookup_lt_is_Some_2 src k) as [o Ho]; [lia|].
    assert (Hmr : map_result f thisArg src !! k
                  = Some ((λ v, f thisArg v k src) <$> o))
      by (by rewrite map_result_lookup, Ho).
    rewrite (present_from_drop _ _ _ Ho).
    cbn [customMap_loop]. unfold bind at 1, get_this at 1. cbn [heap this_arr].
    rewrite (index_in_lookup _ _ _ Ho).
    assert (Hlen : length (take k (map_result f thisArg src)) = k)
      by (rewrite length_take, map_result_length; lia).
    destruct o as [v|]; cbn [bool_decide decide_rel is_Some_dec].
    + rewrite (js_get_lookup _ _ _ Ho).
      unfold bind at 1, method_call, invoke, pure_fn at 1.
      cbn [heap this_arr trace].
      replace (js_set _ k _) with
        (take (S k) (map_result f thisArg src) ++ replicate n None).
      * rewrite IH by lia. by rewrite <-app_assoc.
      * unfold js_set. rewrite decide_True
          by (rewrite length_app, length_replicate, Hlen; lia).
        rewrite (take_S_r _ _ _ Hmr), <-app_assoc. simpl.
        rewrite insert_app_r_alt by lia. by rewrite Hlen, Nat.sub_diag.
    + replace (take k _ ++ replicate (S n) None) with
        (take (S k) (map_result f thisArg src) ++ replicate n None)
        by (by rewrite (take_S_r _ _ _ Hmr), <-app_assoc).
      by rewrite IH by lia.
Qed.

Lemma customMap_pure f thisArg src e t :
  customMap (Fn (pure_fn f)) thisArg (Machine (Store src e) t)
  = (Normal (map_result f thisArg src),
     Machine (Store src e) (t ++ calls_of thisArg (present src))).
Proof.
  unfold customMap. cbn [typeof String.eqb negb].
  unfold bind, get_this. cbn [heap this_arr].
  pose proof (customMap_loop_pure f thisArg src e (length src) 0 t) as H.
  rewrite Nat.sub_0_r in H. by apply H; [|lia].
Qed.

(** ** customFilter and customFind *)

Lemma customFilter_loop_pure p thisArg src e n k newArr t :
  n = length src - k → k ≤ length src →
  customFilter_loop (Fn (pure_fn p)) thisArg n k newArr
    (Machine (Store src e) t)
  = (Normal (newArr ++
       (Some <$> (filter (selects p thisArg src)
                    (present_from k (drop k src))).*2)),
     Machine (Store src e)
       (t ++ calls_of thisArg (present_from k (drop k src)))).
Proof.
  revert k newArr t. induction n as [|n IH]; intros k newArr t Hn Hk.
  - rewrite drop_ge by lia. simpl. by rewrite !app_nil_r.
  - destruct (lookup_lt_is_Some_2 src k) as [o Ho]; [lia|].
    rewrite (present_from_drop _ _ _ Ho).
    cbn [customFilter_loop]. unfold bind at 1, get_this at 1.
    cbn [heap this_arr]. rewrite (index_in_lookup _ _ _ Ho).
    destruct o as [v|]; cbn [bool_decide decide_rel is_Some_dec].
    + rewrite (js_get_lookup _ _ _ Ho).
      unfold bind at 1, method_call, invoke, pure_fn at 1.
      cbn [heap this_arr trace].
      destruct (truthy (p thisArg v k src)) eqn:Hp.
      * unfold bind at 1, get_this at 1. cbn [heap this_arr].
        rewrite (js_get_lookup _ _ _ Ho), IH by lia.
        rewrite filter_cons_True by (unfold selects; simpl; rewrite Hp; simpl; tauto).
        unfold native_push. simpl. by rewrite <-!app_assoc.
      * rewrite IH by lia.
        rewrite filter_cons_False by (unfold selects; simpl; rewrite Hp; simpl; tauto).
        simpl. by rewrite <-!app_assoc.
    + by rewrite IH by lia.
Qed.

Lemma customFilter_pure p thisArg src e t :
  customFilter (Fn (pure_fn p)) thisArg (Machine (Store src e) t)
  = (Normal (Some <$> (filter (selects p thisArg src) (present src)).*2),
     Machine (Store src e) (t ++ calls_of thisArg (present src))).
Proof.
  unfold customFilter. cbn [typeof String.eqb negb].
  unfold bind, get_this. cbn [heap this_arr].
  pose proof (customFilter_loop_pure p thisArg src e (length src) 0 [] t) as H.
  rewrite Nat.sub_0_r in H. by apply H; [|lia].
Qed.

Lemma customFind_loop_pure p thisArg src e n k t :
  n = length src - k → k ≤ length src →
  customFind_loop (Fn (pure_fn p)) thisArg n k (Machine (Store src e) t)
  = match list_find (selects p thisArg src) (present_from k (drop k src)) with
    | Some (j, iv) =>
        (Normal iv.2,
         Machine (Store src e)
           (t ++ calls_of thisArg
                   (take (S j) (present_from k (drop k src)))))
    | None =>
        (Normal VUndefined,
         Machine (Store src e)
           (t ++ calls_of thisArg (present_from k (drop k src))))
    end.
Proof.
  revert k t. induction n as [|n IH]; intros k t Hn Hk.
  - rewrite drop_ge by lia. simpl. by rewrite !app_nil_r.
  - destruct (lookup_lt_is_Some_2 src k) as [o Ho]; [lia|].
    rewrite (present_from_drop _ _ _ Ho).
    cbn [customFind_loop]. unfold bind at 1, get_this at 1.
    cbn [heap this_arr]. rewrite (index_in_lookup _ _ _ Ho).
    destruct o as [v|]; cbn [bool_decide decide_rel is_Some_dec].
    + rewrite (js_get_lookup _ _ _ Ho).
      unfold bind at 1, method_call, invoke, pure_fn at 1.
      cbn [heap this_arr trace list_find].
      destruct (truthy (p thisArg v k src)) eqn:Hp.
      * unfold bind at 1, get_this at 1, ret. cbn [heap this_arr].
        rewrite (js_get_lookup _ _ _ Ho).
        rewrite decide_True by (unfold selects; simpl; rewrite Hp; simpl; tauto).
        done.
      * rewrite IH by lia.
        rewrite decide_False by (unfold selects; simpl; rewrite Hp; simpl; tauto).
        destruct (list_find _ _) as [[j iv]|]; simpl;
          by rewrite <-app_assoc.
    + by rewrite IH by lia.
Qed.

Lemma customFind_pure p thisArg src e t :
  customFind (Fn (pure_fn p)) thisArg (Machine (Store src e) t)
  = match list_find (selects p thisArg src) (present src) with
    | Some (j, iv) =>
        (Normal iv.2,
         Machine (Store src e)
           (t ++ calls_of thisArg (take (S j) (present src))))
    | None =>
        (Normal VUndefined,
         Machine (Store src e) (t ++ calls_of thisArg (present src)))
    end.
Proof.
  unfold customFind, bind, get_this. cbn [heap this_arr].
  pose proof (customFind_loop_pure p thisArg src e (length src) 0 t) as H.
  rewrite Nat.sub_0_r in H. by apply H; [|lia].
Qed.

(** ** customPush and customPop *)

Lemma js_set_end src v :
  is_array_index (length src) = true →
  js_set src (length src) v = src ++ [Some v].
Proof.
  intros Hidx. unfold js_set. rewrite decide_False by lia.
  by rewrite Hidx, Nat.sub_diag.
Qed.

Lemma js_set_at_max_length src v :
  is_array_index (length src) = false → js_set src (length src) v = src.
Proof.
  intros Hidx. unfold js_set. rewrite decide_False by lia. by rewrite Hidx.
Qed.

Lemma is_array_index_true index :
  (Z.of_nat index < max_length)%Z → is_array_index index = true.
Proof. intros H. unfold is_array_index. by apply Z.ltb_lt. Qed.

Lemma is_array_index_false index :
  (max_length ≤ Z.of_nat index)%Z → is_array_index index = false.
Proof. intros H. unfold is_array_index. by apply Z.ltb_ge. Qed.

Lemma args_get_lookup (args : list value) k v :
  args !! k = Some v → args_get args k = v.
Proof. unfold args_get. by intros ->. Qed.

Lemma customPush_loop_all (args : list value) src e n k t :
  n = length args - k → k ≤ length args →
  customPush_loop args n k (Machine (Store src e) t)
  = (Normal (), Machine (Store (push_all (drop k args) src) e) t).
Proof.
  revert k src. induction n as [|n IH]; intros k src Hn Hk.
  - by rewrite drop_ge by lia.
  - destruct (lookup_lt_is_Some_2 args k) as [v Hv]; [lia|].
    cbn [customPush_loop]. unfold bind at 1, get_this at 1.
    cbn [heap this_arr]. unfold bind at 1, put_this at 1.
    cbn [heap this_arr env trace].
    rewrite (args_get_lookup _ _ _ Hv), IH by lia.
    by rewrite (drop_S _ _ _ Hv).
Qed.

Lemma customPush_all (args : list value) src e t :
  customPush args (Machine (Store src e) t)
  = (Normal (length (push_all args src)),
     Machine (Store (push_all args src) e) t).
Proof.
  unfold customPush, bind.
  by rewrite (customPush_loop_all args src e (length args) 0 t) by lia.
Qed.

Lemma push_all_room (vs : list value) src :
  (Z.of_nat (length src + length vs) ≤ max_length)%Z →
  push_all vs src = src ++ (Some <$> vs).
Proof.
  revert src. induction vs as [|v vs IH]; intros src Hroom; simpl.
  - by rewrite app_nil_r.
  - simpl in Hroom. rewrite js_set_end by (apply is_array_index_true; lia).
    rewrite IH by (rewrite length_app; simpl; lia).
    by rewrite <-app_assoc.
Qed.

Lemma push_all_at_max_length (vs : list value) src :
  (max_length ≤ Z.of_nat (length src))%Z → push_all vs src = src.
Proof.
  intros Hfull. induction vs as [|v vs IH]; simpl; [done|].
  by rewrite js_set_at_max_length by (by apply is_array_index_false).
Qed.

Lemma push_all_length (vs : list value) src :
  length src ≤ length (push_all vs src) ≤ length src + length vs.
Proof.
  revert src. induction vs as [|v vs IH]; intros src; simpl; [lia|].
  specialize (IH (js_set src (length src) v)).
  destruct (is_array_index (length src)) eqn:Hidx.
  - rewrite js_set_end in IH |- * by done.
    rewrite length_app in IH. simpl in IH. lia.
  - rewrite js_set_at_max_length in IH |- * by done. lia.
Qed.

Lemma push_all_app (vs1 vs2 : list value) src :
  push_all (vs1 ++ vs2) src = push_all vs2 (push_all vs1 src).
Proof. apply foldl_app. Qed.

Lemma customPush_run (args : list value) src e t :
  (Z.of_nat (length src + length args) ≤ max_length)%Z →
  customPush args (Machine (Store src e) t)
  = (Normal (length src + length args),
     Machine (Store (src ++ (Some <$> args)) e) t).
Proof.
  intros Hroom. rewrite customPush_all, push_all_room by done.
  by rewrite length_app, length_fmap.
Qed.

Lemma customPop_nonempty src e t :
  0 < length src →
  customPop (Machine (Store src e) t)
  = (Normal (js_get src (length src - 1)),
     Machine (Store (take (length src - 1) src) e) t).
Proof.
  intros Hlen. unfold customPop, bind, get_this. cbn [heap this_arr].
  destruct (Nat.ltb_spec 0 (length src)) as [_|?]; [|lia].
  unfold put_this, ret, set_length. cbn [heap this_arr env trace].
  replace (length src - 1 - length src) with 0 by lia.
  simpl. by rewrite app_nil_r.
Qed.

Lemma customPop_empty e t :
  customPop (Machine (Store [] e) t)
  = (Normal VUndefined, Machine (Store [] e) t).
Proof. reflexivity. Qed.

(** ** The rejection of a callback that is not a function *)

Lemma rejection_run {A} callback m :
  ∃ x h,
    bind (arg_to_string callback)
      (λ shown, throw (A:=A) (TypeError (shown +:+ " is not a function"))) m
    = (Throw x, Machine h (trace m)) ∧
    (preserves_array callback → this_arr h = this_arr (heap m)).
Proof.
  unfold bind. destruct callback as [f|v| |conv]; simpl.
  - destruct m. by eexists _, _.
  - destruct m. by eexists _, _.
  - destruct m. by eexists _, _.
  - destruct (conv (heap m)) as [[shown|x] h] eqn:Hconv; simpl;
      eexists _, _; (split; [done|]); intros Hp;
      specialize (Hp (heap m)); by rewrite Hconv in Hp.
Qed.

(** ** The receiver across a call *)

Lemma frames_ret {A} (a : A) : frames (G:=G) (ret a).
Proof. done. Qed.

Lemma frames_throw {A} x : frames (G:=G) (throw (A:=A) x).
Proof. done. Qed.

Lemma frames_get_this : frames (G:=G) get_this.
Proof. done. Qed.

Lemma frames_bind {A B} (c : M G A) (k : A → M G B) :
  frames c → (∀ a, frames (k a)) → frames (bind c k).
Proof.
  intros Hc Hk m. unfold bind. specialize (Hc m).
  destruct (c m) as [[a|x] m']; [|done].
  by rewrite Hk.
Qed.

Lemma frames_method_call callback thisArg v index :
  preserves_array callback → frames (method_call callback thisArg v index).
Proof.
  destruct callback as [f|[]| |conv]; simpl; intros Hf m; try done.
  unfold invoke. specialize (Hf thisArg v index (heap m)).
  by destruct (f thisArg v index (heap m)).
Qed.

Create HintDb frames.
Local Hint Resolve frames_ret frames_throw frames_get_this frames_bind
  frames_method_call : frames.

Lemma frames_customMap_loop callback thisArg n k newArr :
  preserves_array callback →
  frames (customMap_loop callback thisArg n k newArr).
Proof.
  intros Hcb. revert k newArr.
  induction n as [|n IH]; intros k newArr; simpl; [apply frames_ret|].
  apply frames_bind; [apply frames_get_this|]. intros currentArray.
  destruct (index_in k currentArray); auto with frames.
Qed.

Lemma frames_customFilter_loop callback thisArg n k newArr :
  preserves_array callback →
  frames (customFilter_loop callback thisArg n k newArr).
Proof.
  intros Hcb. revert k newArr.
  induction n as [|n IH]; intros k newArr; simpl; [apply frames_ret|].
  apply frames_bind; [apply frames_get_this|]. intros currentArray.
  destruct (index_in k currentArray); [|done].
  apply frames_bind; [auto with frames|]. intros currentItem.
  destruct (truthy currentItem); auto with frames.
Qed.

Lemma frames_customFind_loop callback thisArg n k :
  preserves_array callback →
  frames (customFind_loop callback thisArg n k).
Proof.
  intros Hcb. revert k.
  induction n as [|n IH]; intros k; simpl; [apply frames_ret|].
  apply frames_bind; [apply frames_get_this|]. intros currentArray.
  destruct (index_in k currentArray); [|done].
  apply frames_bind; [auto with frames|]. intros currentItem.
  destruct (truthy currentItem); auto with frames.
Qed.

(** ** The number of invocations *)

Lemma invokes_ret {A} (a : A) b : invokes_at_most (G:=G) b (ret a).
Proof. intros m. simpl. lia. Qed.

Lemma invokes_get_this b : invokes_at_most (G:=G) b get_this.
Proof. intros m. simpl. lia. Qed.

Lemma invokes_bind {A B} (c : M G A) (k : A → M G B) a b :
  invokes_at_most a c → (∀ x, invokes_at_most b (k x)) →
  invokes_at_most (a + b) (bind c k).
Proof.
  intros Hc Hk m. unfold bind. specialize (Hc m).
  destruct (c m) as [[x|x] m']; simpl in *; [|lia].
  specialize (Hk x m'). lia.
Qed.

Lemma invokes_method_call callback thisArg v index :
  invokes_at_most 1 (method_call callback thisArg v index).
Proof.
  destruct callback as [f|[]| |conv]; intros m; simpl; try lia.
  unfold invoke. destruct (f thisArg v index (heap m)). simpl.
  rewrite length_app. simpl. lia.
Qed.

Lemma invokes_weaken {A} (c : M G A) a b :
  a ≤ b → invokes_at_most a c → invokes_at_most b c.
Proof. intros Hab Hc m. specialize (Hc m). lia. Qed.

Lemma invokes_customMap_loop callback thisArg n k newArr :
  invokes_at_most n (customMap_loop callback thisArg n k newArr).
Proof.
  revert k newArr. induction n as [|n IH]; intros k newArr; simpl.
  - apply invokes_ret.
  - apply (invokes_bind _ _ 0 (S n)); [apply invokes_get_this|].
    intros currentArray. destruct (index_in k currentArray).
    + apply (invokes_bind _ _ 1 n); [apply invokes_method_call|done].
    + eapply invokes_weaken; [|apply IH]. lia.
Qed.

Lemma invokes_customFilter_loop callback thisArg n k newArr :
  invokes_at_most n (customFilter_loop callback thisArg n k newArr).
Proof.
  revert k newArr. induction n as [|n IH]; intros k newArr; simpl.
  - apply invokes_ret.
  - apply (invokes_bind _ _ 0 (S n)); [apply invokes_get_this|].
    intros currentArray. destruct (index_in k currentArray).
    + apply (invokes_bind _ _ 1 n); [apply invokes_method_call|].
      intros currentItem. destruct (truthy currentItem); [|done].
      apply (invokes_bind _ _ 0 n); [apply invokes_get_this|done].
    + eapply invokes_weaken; [|apply IH]. lia.
Qed.

Lemma invokes_customFind_loop callback thisArg n k :
  invokes_at_most n (customFind_loop callback thisArg n k).
Proof.
  revert k. induction n as [|n IH]; intros k; simpl.
  - apply invokes_ret.
  - apply (invokes_bind _ _ 0 (S n)); [apply invokes_get_this|].
    intros currentArray. destruct (index_in k currentArray).
    + apply (invokes_bind _ _ 1 n); [apply invokes_method_call|].
      intros currentItem. destruct (truthy currentItem); [|done].
      apply (invokes_bind _ _ 0 n); [apply invokes_get_this|].
      intros ?. apply invokes_ret.
    + eapply invokes_weaken; [|apply IH]. lia.
Qed.

(** ** The two definitions of customMap *)

Lemma js_get_default src i o : src !! i = Some o → js_get src i = default VUndefined o.
Proof. unfold js_get. intros ->. by destruct o. Qed.

Lemma customMap2_loop_pure f src e n k newArr t :
  n = length src - k → k ≤ length src →
  customMap2_loop (Fn (pure_fn f)) n k newArr (Machine (Store src e) t)
  = (Normal (newArr ++ drop k (map2_result f src)),
     Machine (Store src e) (t ++ drop k (map2_calls src))).
Proof.
  revert k newArr t. induction n as [|n IH]; intros k newArr t Hn Hk.
  - rewrite !drop_ge by (unfold map2_result, map2_calls;
                         rewrite length_imap; lia).
    simpl. by rewrite !app_nil_r.
  - destruct (lookup_lt_is_Some_2 src k) as [o Ho]; [lia|].
    cbn [customMap2_loop]. unfold bind at 1, get_this at 1.
    cbn [heap this_arr]. rewrite (js_get_default _ _ _ Ho).
    unfold bind at 1, plain_call, invoke, pure_fn at 1.
    cbn [heap this_arr trace]. rewrite IH by lia.
    rewrite (drop_S (map2_result f src) (Some (f VUndefined (default VUndefined o) k src)) k)
      by (unfold map2_result; by rewrite list_lookup_imap, Ho).
    rewrite (drop_S (map2_calls src) (Call VUndefined (default VUndefined o) k) k)
      by (unfold map2_calls; by rewrite list_lookup_imap, Ho).
    unfold native_push. by rewrite <-!app_assoc.
Qed.

Lemma customMap2_pure f src e t :
  customMap2 (Fn (pure_fn f)) (Machine (Store src e) t)
  = (Normal (map2_result f src),
     Machine (Store src e) (t ++ map2_calls src)).
Proof.
  unfold customMap2, bind, get_this. cbn [heap this_arr].
  by rewrite (customMap2_loop_pure f src e (length src) 0 [] t) by lia.
Qed.

Lemma js_set_prealloc newArr n k x :
  length newArr = k →
  js_set (newArr ++ replicate (S n) None) k x
  = native_push newArr x ++ replicate n None.
Proof.
  intros Hlen. unfold js_set, native_push.
  rewrite decide_True by (rewrite length_app, length_replicate; lia).
  rewrite insert_app_r_alt by lia.
  rewrite Hlen, Nat.sub_diag. simpl. by rewrite <-app_assoc.
Qed.

Lemma customMap_loop_S callback thisArg n k newArr (m : machine G) :
  customMap_loop callback thisArg (S n) k newArr m
  = if index_in k (this_arr (heap m)) then
      match method_call callback thisArg (js_get (this_arr (heap m)) k) k m with
      | (Normal currentItem, m') =>
          customMap_loop callback thisArg n (S k)
            (js_set newArr k currentItem) m'
      | (Throw x, m') => (Throw x, m')
      end
    else customMap_loop callback thisArg n (S k) newArr m.
Proof.
  cbn [customMap_loop]. unfold bind at 1, get_this.
  by destruct (index_in k (this_arr (heap m))).
Qed.

Lemma customMap2_loop_S callback n k newArr (m : machine G) :
  customMap2_loop callback (S n) k newArr m
  = match plain_call callback (js_get (this_arr (heap m)) k) k m with
    | (Normal currentItem, m') =>
        customMap2_loop callback n (S k) (native_push newArr currentItem) m'
    | (Throw x, m') => (Throw x, m')
    end.
Proof. reflexivity. Qed.

Lemma customMap_loops_agree f thisArg n k newArr (m1 m2 : machine G) :
  ignores_this f → keeps_elements f →
  heap m1 = heap m2 → length newArr = k →
  (∀ i, k ≤ i < k + n → index_in i (this_arr (heap m1)) = true) →
  (customMap_loop (Fn f) thisArg n k (newArr ++ replicate n None) m1).1
  = (customMap2_loop (Fn f) n k newArr m2).1 ∧
  heap (customMap_loop (Fn f) thisArg n k (newArr ++ replicate n None) m1).2
  = heap (customMap2_loop (Fn f) n k newArr m2).2.
Proof.
  intros Hthis Hkeep. revert k newArr m1 m2.
  induction n as [|n IH]; intros k newArr m1 m2 Hheap Hlen Hin.
  - simpl. by rewrite app_nil_r.
  - rewrite customMap_loop_S, customMap2_loop_S, (Hin k) by lia.
    unfold method_call, plain_call, invoke.
    rewrite <-Hheap, (Hthis thisArg VUndefined).
    pose proof (Hkeep VUndefined (js_get (this_arr (heap m1)) k) k (heap m1))
      as Hkeep'.
    destruct (f VUndefined _ k (heap m1)) as [[x|x] h']; [|done].
    rewrite js_set_prealloc by done.
    apply IH; [done | unfold native_push; rewrite length_app; simpl; lia |].
    intros i Hi. apply Hkeep', Hin. lia.
Qed.

Lemma customMap_definitions_agree f thisArg (m : machine G) :
  ignores_this f → keeps_elements f → dense (this_arr (heap m)) →
  (customMap (Fn f) thisArg m).1 = (customMap2 (Fn f) m).1 ∧
  heap (customMap (Fn f) thisArg m).2 = heap (customMap2 (Fn f) m).2.
Proof.
  intros Hthis Hkeep Hdense. unfold customMap, customMap2.
  cbn [typeof String.eqb negb]. unfold bind, get_this, new_Array.
  apply (customMap_loops_agree f thisArg _ 0 []); try done.
  intros i Hi. apply Hdense. lia.
Qed.

(** ** The first match of a predicate among the present elements *)

Lemma StronglySorted_lookup_lt {A} (R : relation A) (l : list A) a b x y :
  StronglySorted R l → l !! a = Some x → l !! b = Some y → a < b → R x y.
Proof.
  intros Hs. revert a b.
  induction Hs as [|z l Hs IH Hall]; intros a b Ha Hb Hab; [done|].
  destruct a as [|a], b as [|b]; simpl in *; try lia.
  - injection Ha as ->. rewrite Forall_forall in Hall.
    apply Hall. by eapply list_elem_of_lookup_2.
  - apply (IH a b); [done..|lia].
Qed.

Lemma present_lookup_lt src j j' i i' v v' :
  present src !! j = Some (i, v) → present src !! j' = Some (i', v') →
  i' < i → j' < j.
Proof.
  intros Hj Hj' Hlt. destruct (decide (j' < j)) as [|Hge]; [done|].
  exfalso. destruct (decide (j = j')) as [->|Hne].
  - rewrite Hj in Hj'. injection Hj' as ??. lia.
  - assert (i < i'); [|lia].
    apply (StronglySorted_lookup_lt lt (present src).*1 j j');
      [apply present_sorted| | |lia].
    + by rewrite list_lookup_fmap, Hj.
    + by rewrite list_lookup_fmap, Hj'.
Qed.

Lemma present_first_match (sel : nat * value → bool) src j i v :
  list_find sel (present src) = Some (j, (i, v)) →
  src !! i = Some (Some v) ∧ sel (i, v) = true ∧
  ∀ i' v', i' < i → src !! i' = Some (Some v') → sel (i', v') = false.
Proof.
  intros (Hj & Hsel & Hmin)%list_find_Some. split_and!.
  - apply elem_of_present. by eapply list_elem_of_lookup_2.
  - by apply Is_true_true.
  - intros i' v' Hlt [j' Hj']%elem_of_present%list_elem_of_lookup.
    apply not_true_is_false. intros Hs%Is_true_true.
    by apply (Hmin j' (i', v')); [|eapply present_lookup_lt|].
Qed.

Lemma present_no_match (sel : nat * value → bool) src :
  list_find sel (present src) = None →
  ∀ i v, src !! i = Some (Some v) → sel (i, v) = false.
Proof.
  intros Hnone%list_find_None i v Hin%elem_of_present.
  rewrite Forall_forall in Hnone.
  apply not_true_is_false. intros Hs%Is_true_true. by apply (Hnone (i, v)).
Qed.

Lemma calls_of_index thisArg l c :
  c ∈ calls_of thisArg l → ∃ v, (call_index c, v) ∈ l.
Proof.
  intros [[i v] [-> Hin]]%list_elem_of_fmap. by exists v.
Qed.

Lemma no_call_on_hole thisArg src i c :
  src !! i = Some None → c ∈ calls_of thisArg (present src) →
  call_index c ≠ i.
Proof.
  intros Hhole [v Hin%elem_of_present]%calls_of_index Heq. congruence.
Qed.

(** * The claims *)

(** C1. For every array [src] and pure transform [f], customMap returns an
    array [out] of the length of [src]; at every present index [i] of [src]
    the output holds [f(src[i], i, src)]; every hole of [src] is a hole of
    [out], and [f] is not invoked for it: the invocations are those of the
    present indices, in ascending order. *)
Theorem customMap_transform
    (f : value → value → nat → array → value) thisArg src e t :
  ∃ out,
    customMap (Fn (pure_fn f)) thisArg (Machine (Store src e) t)
    = (Normal out,
       Machine (Store src e) (t ++ calls_of thisArg (present src))) ∧
    length out = length src ∧
    (∀ i v, src !! i = Some (Some v) →
            out !! i = Some (Some (f thisArg v i src))) ∧
    (∀ i, src !! i = Some None →
          out !! i = Some None ∧
          ∀ c, c ∈ calls_of thisArg (present src) → call_index c ≠ i).
Proof.
  exists (map_result f thisArg src). split_and!.
  - apply customMap_pure.
  - apply map_result_length.
  - intros i v Hi. by rewrite map_result_lookup, Hi.
  - intros i Hi. split; [by rewrite map_result_lookup, Hi|].
    intros c. by apply no_call_on_hole.
Qed.

(** C2. For every array [src] and predicate [p], customFilter returns the
    dense array of the present elements of [src] that [p] maps to a truthy
    value, in ascending order of index; [p] is invoked on the present
    indices only; and with the predicate that is constantly true the result
    holds the present elements of [src]. *)
Theorem customFilter_select
    (p : value → value → nat → array → value) thisArg src e t :
  customFilter (Fn (pure_fn p)) thisArg (Machine (Store src e) t)
  = (Normal (Some <$> (filter (selects p thisArg src) (present src)).*2),
     Machine (Store src e) (t ++ calls_of thisArg (present src))) ∧
  (∀ i v, (i, v) ∈ present src ↔ src !! i = Some (Some v)) ∧
  StronglySorted lt (present src).*1 ∧
  (∀ i c, src !! i = Some None →
          c ∈ calls_of thisArg (present src) → call_index c ≠ i) ∧
  (customFilter (Fn (pure_fn (λ _ _ _ _, VBool true))) thisArg
     (Machine (Store src e) t)).1
  = Normal (Some <$> (present src).*2).
Proof.
  split_and!.
  - apply customFilter_pure.
  - apply elem_of_present.
  - apply present_sorted.
  - intros i c. apply no_call_on_hole.
  - rewrite customFilter_pure. simpl. do 3 f_equal.
    induction (present src) as [|iv l IH]; [done|].
    rewrite filter_cons_True by done. by rewrite IH.
Qed.

(** C3. For every array [src] and predicate [p], customFind invokes [p] on
    the present indices in ascending order and stops at the first element
    that [p] maps to a truthy value, which it returns; no hole is visited
    and nothing is invoked after the match.  When no present element
    matches, and so when [src] is empty, it returns [undefined]. *)
Theorem customFind_locate
    (p : value → value → nat → array → value) thisArg src e t :
  customFind (Fn (pure_fn p)) thisArg (Machine (Store src e) t)
  = match list_find (selects p thisArg src) (present src) with
    | Some (j, iv) =>
        (Normal iv.2,
         Machine (Store src e)
           (t ++ calls_of thisArg (take (S j) (present src))))
    | None =>
        (Normal VUndefined,
         Machine (Store src e) (t ++ calls_of thisArg (present src)))
    end ∧
  (∀ j i v, list_find (selects p thisArg src) (present src) = Some (j, (i, v)) →
     src !! i = Some (Some v) ∧ truthy (p thisArg v i src) = true ∧
     (∀ i' v', i' < i → src !! i' = Some (Some v') →
               truthy (p thisArg v' i' src) = false) ∧
     (∀ c, c ∈ calls_of thisArg (take (S j) (present src)) →
           call_index c ≤ i ∧ index_in (call_index c) src = true)) ∧
  (list_find (selects p thisArg src) (present src) = None →
     ∀ i v, src !! i = Some (Some v) → truthy (p thisArg v i src) = false) ∧
  customFind (Fn (pure_fn p)) thisArg (Machine (Store [] e) t)
  = (Normal VUndefined, Machine (Store [] e) t).
Proof.
  split_and!.
  - apply customFind_pure.
  - intros j i v Hfind.
    destruct (present_first_match _ _ _ _ _ Hfind) as (Hi & Hsel & Hmin).
    split_and!; [done..|].
    intros c [[i' v'] [-> Hin]]%list_elem_of_fmap.
    apply list_elem_of_lookup in Hin as [j' Hj']. simpl.
    apply lookup_take_Some in Hj' as [Hj' Hlt].
    assert (Hi' : src !! i' = Some (Some v'))
      by (apply elem_of_present; by eapply list_elem_of_lookup_2).
    split; [|unfold index_in; by rewrite Hi'].
    destruct (decide (i' ≤ i)) as [|Hgt]; [done|]. exfalso.
    apply list_find_Some in Hfind as (Hj & _ & _).
    pose proof (present_lookup_lt src j' j i' i v' v Hj' Hj). lia.
  - intros Hnone i v Hi.
    exact (present_no_match (selects p thisArg src) src Hnone i v Hi).
  - rewrite customFind_pure. simpl. by rewrite app_nil_r.
Qed.

(** C4, as amended.  For every array [src] of length [n] and values
    [args] = v1..vk with [n + k] at most [2^32 - 1], the greatest length
    of an array, customPush stores the values in order at the indices [n],
    [n+1], ..., leaves everything below [n] as it was, makes the length
    [n+k] and returns [n+k]; without arguments the array is untouched and
    [n] is returned. *)
Theorem customPush_append (args : list value) src e t :
  ((Z.of_nat (length src + length args) ≤ max_length)%Z →
   customPush args (Machine (Store src e) t)
   = (Normal (length src + length args),
      Machine (Store (src ++ (Some <$> args)) e) t) ∧
   length (src ++ (Some <$> args)) = length src + length args ∧
   (∀ j v, args !! j = Some v →
           (src ++ (Some <$> args)) !! (length src + j) = Some (Some v)) ∧
   (∀ i, i < length src → (src ++ (Some <$> args)) !! i = src !! i)) ∧
  customPush [] (Machine (Store src e) t)
  = (Normal (length src), Machine (Store src e) t).
Proof.
  split; [intros Hroom; split_and!|].
  - by apply customPush_run.
  - by rewrite length_app, length_fmap.
  - intros j v Hj. rewrite lookup_app_r by lia.
    replace (length src + j - length src) with j by lia.
    by rewrite list_lookup_fmap, Hj.
  - intros i Hi. by rewrite lookup_app_l.
  - by rewrite customPush_all.
Qed.

(** C5. On an array of positive length customPop returns the element at
    index [length - 1], which is [undefined] when that index is a hole,
    lowers the length by exactly one and leaves the other indices as they
    were; on an array of length 0 it changes nothing and returns
    [undefined]. *)
Theorem customPop_remove_last src e t :
  (0 < length src →
   ∃ src',
     customPop (Machine (Store src e) t)
     = (Normal (js_get src (length src - 1)), Machine (Store src' e) t) ∧
     length src' = length src - 1 ∧
     (∀ i, i < length src - 1 → src' !! i = src !! i) ∧
     (∀ v, src !! (length src - 1) = Some (Some v) →
           js_get src (length src - 1) = v) ∧
     (src !! (length src - 1) = Some None →
      js_get src (length src - 1) = VUndefined)) ∧
  (length src = 0 →
   customPop (Machine (Store src e) t)
   = (Normal VUndefined, Machine (Store src e) t)).
Proof.
  split.
  - intros Hlen. exists (take (length src - 1) src). split_and!.
    + by apply customPop_nonempty.
    + rewrite length_take. lia.
    + intros i Hi. by rewrite lookup_take_lt.
    + apply js_get_lookup.
    + unfold js_get. by intros ->.
  - intros ->%nil_length_inv. apply customPop_empty.
Qed.

(** C6 fails on the code.  Before customMap and customFilter raise their
    TypeError they convert the callback to a string, for the message; of an
    object that is not a function this runs the [toString].  What the
    conversion throws is what the caller gets, a TypeError or not, and
    what it writes to the array stays written. *)
Theorem invalid_callback_conversion
    (conv : store G → completion string * store G) thisArg (m : machine G) :
  customMap (NotFnObject conv) thisArg m
  = match conv (heap m) with
    | (Normal shown, h) =>
        (Throw (TypeError (shown +:+ " is not a function")),
         Machine h (trace m))
    | (Throw x, h) => (Throw x, Machine h (trace m))
    end ∧
  customFilter (NotFnObject conv) thisArg m
  = match conv (heap m) with
    | (Normal shown, h) =>
        (Throw (TypeError (shown +:+ " is not a function")),
         Machine h (trace m))
    | (Throw x, h) => (Throw x, Machine h (trace m))
    end.
Proof.
  unfold customMap, customFilter.
  change (negb (String.eqb (typeof (NotFnObject conv)) "function")) with true.
  unfold bind, arg_to_string. cbv iota.
  by destruct (conv (heap m)) as [[shown|x] h].
Qed.

(** C7 fails on the code: customFind has no check of its callback.  On an
    array without present index, the empty one among them, a callback that
    is not a function is never called and [undefined] is returned. *)
Theorem customFind_unchecked_callback v thisArg n e t :
  customFind (NotFn v) thisArg (Machine (Store (replicate n None) e) t)
  = (Normal VUndefined, Machine (Store (replicate n None) e) t).
Proof.
  unfold customFind, bind, get_this. cbn [heap this_arr].
  rewrite length_replicate.
  assert (H : ∀ k j, customFind_loop (NotFn v) thisArg k j
                (Machine (Store (replicate n None) e) t)
              = (Normal VUndefined, Machine (Store (replicate n None) e) t)).
  { induction k as [|k IH]; intros j; [done|].
    cbn [customFind_loop]. unfold bind at 1, get_this. cbn [heap this_arr].
    replace (index_in j (replicate n None)) with false; [apply IH|].
    unfold index_in. destruct (replicate n None !! j) as [o|] eqn:Hj; [|done].
    by apply lookup_replicate in Hj as [-> _]. }
  apply H.
Qed.

(** C8, as amended.  The three traversals never write to their receiver:
    whenever the callback leaves the array as it found it, the array after
    the call is the array before it, whether the call returns or throws. *)
Theorem source_unchanged callback thisArg (m : machine G) :
  preserves_array callback →
  this_arr (heap (customMap callback thisArg m).2) = this_arr (heap m) ∧
  this_arr (heap (customFilter callback thisArg m).2) = this_arr (heap m) ∧
  this_arr (heap (customFind callback thisArg m).2) = this_arr (heap m).
Proof.
  intros Hcb. split_and!.
  - unfold customMap. destruct (negb _).
    { destruct (rejection_run (A:=array) callback m)
        as (x & h & -> & Hh). by apply Hh. }
    apply frames_bind; [done|]. intros this.
    apply frames_bind; [done|]. intros currentArray.
    by apply frames_customMap_loop.
  - unfold customFilter. destruct (negb _).
    { destruct (rejection_run (A:=array) callback m)
        as (x & h & -> & Hh). by apply Hh. }
    apply frames_bind; [done|]. intros currentArray.
    by apply frames_customFilter_loop.
  - unfold customFind.
    apply frames_bind; [done|]. intros currentArray.
    by apply frames_customFind_loop.
Qed.

(** C9. Each of the five methods returns on every array and every
    callback: it is a total function of the machine it starts in, and its
    loop runs for the number of iterations fixed before it starts (the
    cached length, the number of arguments).  The traversals invoke the
    callback at most [length] times, customPush performs one assignment per
    argument, which lengthens the array by one element or, at the greatest
    length, not at all, and customPop at most one truncation. *)
Theorem methods_terminate callback thisArg (args : list value) (m : machine G) :
  (∃ r m', customMap callback thisArg m = (r, m') ∧
     length (trace m') ≤ length (trace m) + length (this_arr (heap m))) ∧
  (∃ r m', customFilter callback thisArg m = (r, m') ∧
     length (trace m') ≤ length (trace m) + length (this_arr (heap m))) ∧
  (∃ r m', customFind callback thisArg m = (r, m') ∧
     length (trace m') ≤ length (trace m) + length (this_arr (heap m))) ∧
  (∃ n m', customPush args m = (Normal n, m') ∧
     length (this_arr (heap m')) = n ∧
     length (this_arr (heap m)) ≤ n ≤ length (this_arr (heap m)) + length args ∧
     trace m' = trace m) ∧
  (∃ v m', customPop m = (Normal v, m') ∧
     length (this_arr (heap m')) = length (this_arr (heap m)) - 1 ∧
     trace m' = trace m).
Proof.
  split_and!.
  - destruct (customMap callback thisArg m) as [r m'] eqn:Hrun.
    exists r, m'. split; [done|].
    change m' with (r, m').2. rewrite <-Hrun. clear Hrun.
    unfold customMap. destruct (negb _);
      [destruct (rejection_run (A:=array) callback m) as (x & h & -> & _);
       simpl; lia|].
    unfold bind at 1 2, get_this. apply invokes_customMap_loop.
  - destruct (customFilter callback thisArg m) as [r m'] eqn:Hrun.
    exists r, m'. split; [done|].
    change m' with (r, m').2. rewrite <-Hrun. clear Hrun.
    unfold customFilter. destruct (negb _);
      [destruct (rejection_run (A:=array) callback m) as (x & h & -> & _);
       simpl; lia|].
    unfold bind at 1, get_this. apply invokes_customFilter_loop.
  - destruct (customFind callback thisArg m) as [r m'] eqn:Hrun.
    exists r, m'. split; [done|].
    change m' with (r, m').2. rewrite <-Hrun. clear Hrun.
    unfold customFind, bind at 1, get_this. apply invokes_customFind_loop.
  - destruct m as [[src e] t]. rewrite customPush_all. eexists _, _.
    split; [done|]. simpl. split; [done|]. split; [|done].
    apply push_all_length.
  - destruct m as [[src e] t]. destruct src as [|o src] using rev_ind.
    + rewrite customPop_empty. by eexists _, _.
    + rewrite customPop_nonempty by (rewrite length_app; simpl; lia).
      eexists _, _. split; [done|]. simpl. split; [|done].
      rewrite length_take, length_app. simpl. lia.
Qed.

(** C10, as amended.  The two definitions of customMap return the same
    completion, and leave the same store, on every dense array and every
    function that ignores its call-context and removes no element of the
    array it is passed.  They differ otherwise: on an array with a hole the
    earlier definition invokes the callback on the hole, passing
    [undefined], and returns a dense array where the current one returns a
    hole; and only the current one rejects a value that is not a function
    before it iterates: the earlier one returns the empty array on an empty
    receiver and fails at the first call on any other. *)
Theorem customMap_definitions_compared :
  (∀ (f : fn G) thisArg m,
     ignores_this f → keeps_elements f → dense (this_arr (heap m)) →
     (customMap (Fn f) thisArg m).1 = (customMap2 (Fn f) m).1 ∧
     heap (customMap (Fn f) thisArg m).2 = heap (customMap2 (Fn f) m).2) ∧
  (∀ (f : value → value → nat → array → value) thisArg src e t,
     ∃ out out2,
       (customMap (Fn (pure_fn f)) thisArg (Machine (Store src e) t)).1
       = Normal out ∧
       customMap2 (Fn (pure_fn f)) (Machine (Store src e) t)
       = (Normal out2, Machine (Store src e) (t ++ map2_calls src)) ∧
       length out2 = length src ∧ dense out2 ∧
       ∀ i, src !! i = Some None →
            out !! i = Some None ∧
            out2 !! i = Some (Some (f VUndefined VUndefined i src)) ∧
            Call VUndefined VUndefined i ∈ map2_calls src) ∧
  (∀ v thisArg m,
     customMap (NotFn v) thisArg m
     = (Throw (TypeError (to_string v +:+ " is not a function")), m) ∧
     (this_arr (heap m) = [] → customMap2 (NotFn v) m = (Normal [], m)) ∧
     (this_arr (heap m) ≠ [] →
      customMap2 (NotFn v) m
      = (Throw (TypeError "callback is not a function"), m))).
Proof.
  split_and!.
  - intros f thisArg m. apply customMap_definitions_agree.
  - intros f thisArg src e t.
    exists (map_result f thisArg src), (map2_result f src). split_and!.
    + by rewrite customMap_pure.
    + apply customMap2_pure.
    + apply length_imap.
    + intros i Hi. unfold map2_result, index_in in *.
      rewrite length_imap in Hi.
      destruct (lookup_lt_is_Some_2 src i Hi) as [o Ho].
      by rewrite list_lookup_imap, Ho.
    + intros i Hi. split_and!.
      * by rewrite map_result_lookup, Hi.
      * unfold map2_result. by rewrite list_lookup_imap, Hi.
      * apply list_elem_of_lookup. exists i.
        unfold map2_calls. by rewrite list_lookup_imap, Hi.
  - intros v thisArg m. split_and!.
    + by destruct v.
    + intros Hnil. unfold customMap2, bind, get_this. by rewrite Hnil.
    + intros Hne. unfold customMap2, bind at 1, get_this.
      destruct (this_arr (heap m)) as [|o src]; [done|]. reflexivity.
Qed.

End Properties.

(** * Further properties *)

Section Further.

Context {G : Type}.

Implicit Types (src newArr : array) (e : G) (t : list call) (thisArg v : value).
Implicit Types (callback : arg G) (m : machine G).

(** ** customPush and customPop together *)

Lemma customPop_snoc src o e t :
  customPop (Machine (Store (src ++ [o]) e) t)
  = (Normal (default VUndefined o), Machine (Store src e) t).
Proof.
  rewrite customPop_nonempty by (rewrite length_app; simpl; lia).
  rewrite length_app. simpl. replace (length src + 1 - 1) with (length src) by lia.
  rewrite take_app_length. f_equal. f_equal.
  unfold js_get. rewrite lookup_app_r, Nat.sub_diag by lia. by destruct o.
Qed.

(** X1. Where the array has room for them, pushing values and then
    popping returns the last value pushed and leaves the array with the
    other pushed values at its end: pushing one value and popping restores
    the array. *)
Theorem customPush_then_customPop (args : list value) v src e t :
  (Z.of_nat (length src + length args) < max_length)%Z →
  bind (customPush (args ++ [v])) (λ _, customPop) (Machine (Store src e) t)
  = (Normal v, Machine (Store (src ++ (Some <$> args)) e) t).
Proof.
  intros Hroom. unfold bind.
  rewrite customPush_run by (rewrite length_app; simpl; lia).
  rewrite fmap_app, app_assoc. simpl. by rewrite customPop_snoc.
Qed.

(** X2. Popping and pushing the popped value back restores the array
    exactly when its last index is present.  A trailing hole comes back as
    a stored [undefined], and on the empty array, where customPop returns
    [undefined] without removing anything, the push makes the array
    [[undefined]].  The array is any array: one of length at most
    [2^32 - 1]. *)
Theorem customPop_then_customPush e t :
  (∀ src o,
     (Z.of_nat (length (src ++ [o])) ≤ max_length)%Z →
     bind customPop (λ v, customPush [v]) (Machine (Store (src ++ [o]) e) t)
     = (Normal (S (length src)),
        Machine (Store (src ++ [Some (default VUndefined o)]) e) t)) ∧
  bind customPop (λ v, customPush [v]) (Machine (Store [] e) t)
  = (Normal 1, Machine (Store [Some VUndefined] e) t).
Proof.
  split; [|done]. intros src o Hlen. unfold bind.
  rewrite length_app in Hlen. simpl in Hlen.
  rewrite customPop_snoc, customPush_run by (simpl; lia).
  simpl. do 2 f_equal. lia.
Qed.

(** X3. Two calls of customPush in a row are one call with the arguments of
    both: the same array and the same returned length. *)
Theorem customPush_twice (args1 args2 : list value) m :
  bind (customPush args1) (λ _, customPush args2) m
  = customPush (args1 ++ args2) m.
Proof.
  destruct m as [[src e] t]. unfold bind.
  by rewrite !customPush_all, push_all_app.
Qed.

Lemma customPop_times_run n src e t :
  customPop_times n (Machine (Store src e) t)
  = (Normal ((default VUndefined <$> reverse (drop (length src - n) src))
             ++ replicate (n - length src) VUndefined),
     Machine (Store (take (length src - n) src) e) t).
Proof.
  revert src. induction n as [|n IH]; intros src.
  - simpl. unfold ret. rewrite Nat.sub_0_r, drop_all, take_ge by lia.
    done.
  - cbn [customPop_times]. unfold bind at 1.
    destruct src as [|o src _] using rev_ind.
    + rewrite customPop_empty. unfold bind. rewrite IH. unfold ret. simpl.
      by rewrite Nat.sub_0_r.
    + rewrite customPop_snoc. unfold bind. rewrite IH. unfold ret.
      rewrite length_app. simpl.
      replace (length src + 1 - S n) with (length src - n) by lia.
      replace (S n - (length src + 1)) with (n - length src) by lia.
      rewrite (take_app_le src [o]) by lia.
      rewrite (drop_app_le src [o]) by lia.
      by rewrite reverse_app.
Qed.

(** X4. [n] calls of customPop in a row return the last [n] elements of the
    array from the last one backwards, a hole read as [undefined], and
    leave the elements before them; once the array is empty every further
    call returns [undefined] and the array stays empty.  With [n] the
    length of the array, the array is drained. *)
Theorem customPop_repeated n src e t :
  customPop_times n (Machine (Store src e) t)
  = (Normal ((default VUndefined <$> reverse (drop (length src - n) src))
             ++ replicate (n - length src) VUndefined),
     Machine (Store (take (length src - n) src) e) t) ∧
  customPop_times (length src) (Machine (Store src e) t)
  = (Normal (default VUndefined <$> reverse src), Machine (Store [] e) t).
Proof.
  split; [apply customPop_times_run|].
  rewrite customPop_times_run, !Nat.sub_diag. simpl. by rewrite app_nil_r.
Qed.

(** ** What holds for every callback *)

Lemma js_set_length newArr k x :
  k < length newArr → length (js_set newArr k x) = length newArr.
Proof.
  intros Hk. unfold js_set. rewrite decide_True by done. apply length_insert.
Qed.

Lemma customMap_loop_length callback thisArg n k newArr m :
  k + n ≤ length newArr →
  match customMap_loop callback thisArg n k newArr m with
  | (Normal out, _) => length out = length newArr
  | (Throw _, _) => True
  end.
Proof.
  revert k newArr m. induction n as [|n IH]; intros k newArr m Hk; [done|].
  rewrite customMap_loop_S. destruct (index_in k (this_arr (heap m))).
  - destruct (method_call _ _ _ _ _) as [[x|x] m']; [|done].
    specialize (IH (S k) (js_set newArr k x) m').
    rewrite js_set_length in IH by lia. apply IH. lia.
  - apply IH. lia.
Qed.

Lemma customMap2_loop_length callback n k newArr m :
  match customMap2_loop callback n k newArr m with
  | (Normal out, _) => length out = length newArr + n
  | (Throw _, _) => True
  end.
Proof.
  revert k newArr m. induction n as [|n IH]; intros k newArr m.
  - simpl. lia.
  - rewrite customMap2_loop_S.
    destruct (plain_call _ _ _ _) as [[x|x] m']; [|done].
    specialize (IH (S k) (native_push newArr x) m').
    destruct (customMap2_loop _ _ _ _ _) as [[out|] ?]; [|done].
    rewrite IH. unfold native_push. rewrite length_app. simpl. lia.
Qed.

(** X5. Whatever the callback does, to the array too, an array that
    either definition of customMap returns has the length the receiver had
    when the method was called: the length is read once, before the
    loop. *)
Theorem customMap_result_length callback thisArg m :
  match customMap callback thisArg m with
  | (Normal out, _) => length out = length (this_arr (heap m))
  | (Throw _, _) => True
  end ∧
  match customMap2 callback m with
  | (Normal out, _) => length out = length (this_arr (heap m))
  | (Throw _, _) => True
  end.
Proof.
  split.
  - unfold customMap. destruct (negb _);
    [by destruct (rejection_run (A:=array) callback m) as (x & h & -> & _)|].
    unfold bind at 1 2, get_this.
    pose proof (customMap_loop_length callback thisArg
                  (length (this_arr (heap m))) 0
                  (new_Array (length (this_arr (heap m)))) m) as H.
    unfold new_Array in *. rewrite length_replicate in H. by apply H.
  - unfold customMap2, bind at 1, get_this.
    apply (customMap2_loop_length callback _ 0 [] m).
Qed.

Lemma dense_native_push newArr v : dense newArr → dense (native_push newArr v).
Proof.
  intros Hd i Hi. unfold native_push, index_in in *.
  rewrite length_app in Hi. simpl in Hi.
  destruct (decide (i < length newArr)) as [Hlt|Hge].
  - rewrite lookup_app_l by done. by apply Hd.
  - rewrite lookup_app_r by lia.
    by replace (i - length newArr) with 0 by lia.
Qed.

Lemma customFilter_loop_dense callback thisArg n k newArr m :
  dense newArr →
  match customFilter_loop callback thisArg n k newArr m with
  | (Normal out, _) => dense out ∧ length out ≤ length newArr + n
  | (Throw _, _) => True
  end.
Proof.
  revert k newArr m. induction n as [|n IH]; intros k newArr m Hd.
  - simpl. split; [done|lia].
  - cbn [customFilter_loop]. unfold bind at 1, get_this.
    destruct (index_in k (this_arr (heap m))).
    + unfold bind at 1.
      destruct (method_call _ _ _ _ _) as [[x|x] m']; [|done].
      destruct (truthy x).
      * unfold bind at 1.
        specialize (IH (S k)
          (native_push newArr (js_get (this_arr (heap m')) k)) m'
          (dense_native_push _ _ Hd)).
        destruct (customFilter_loop _ _ _ _ _ _) as [[out|] ?]; [|done].
        unfold native_push in IH. rewrite length_app in IH. simpl in IH.
        split; [apply IH|lia].
      * specialize (IH (S k) newArr m' Hd).
        destruct (customFilter_loop _ _ _ _ _ _) as [[out|] ?]; [|done].
        split; [apply IH|lia].
    + specialize (IH (S k) newArr m Hd).
      destruct (customFilter_loop _ _ _ _ _ _) as [[out|] ?]; [|done].
      split; [apply IH|lia].
Qed.

(** X6. Whatever the callback does, an array that customFilter returns
    has no hole and is no longer than the receiver was when the method was
    called. *)
Theorem customFilter_result_dense callback thisArg m :
  match customFilter callback thisArg m with
  | (Normal out, _) => dense out ∧ length out ≤ length (this_arr (heap m))
  | (Throw _, _) => True
  end.
Proof.
  unfold customFilter. destruct (negb _);
    [by destruct (rejection_run (A:=array) callback m) as (x & h & -> & _)|].
  unfold bind at 1, get_this.
  apply (customFilter_loop_dense callback thisArg _ 0 [] m).
  intros i Hi. simpl in Hi. lia.
Qed.

Lemma customMap2_loop_dense callback n k newArr m :
  dense newArr →
  match customMap2_loop callback n k newArr m with
  | (Normal out, m') =>
      dense out ∧
      ∃ vs, length vs = n ∧ length out = length newArr + n ∧
            trace m' = trace m ++ imap (λ i v, Call VUndefined v (k + i)) vs
  | (Throw _, _) => True
  end.
Proof.
  revert k newArr m. induction n as [|n IH]; intros k newArr m Hd.
  - simpl. split; [done|]. exists []. simpl. rewrite app_nil_r.
    split_and!; [done|lia|done].
  - rewrite customMap2_loop_S. destruct callback as [f|w| |conv]; [|done..].
    simpl. unfold invoke.
    destruct (f VUndefined _ k (heap m)) as [[x|x] h]; [|done].
    specialize (IH (S k) (native_push newArr x)
                  (Machine h (trace m ++ [Call VUndefined
                     (js_get (this_arr (heap m)) k) k]))
                  (dense_native_push _ _ Hd)).
    destruct (customMap2_loop _ _ _ _ _) as [[out|] m']; [|done].
    destruct IH as (Hout & vs & Hvs & Hlen & Htrace). split; [done|].
    exists (js_get (this_arr (heap m)) k :: vs). split_and!.
    + simpl. lia.
    + unfold native_push in Hlen. rewrite length_app in Hlen.
      simpl in Hlen. lia.
    + rewrite Htrace. simpl. rewrite <-app_assoc. simpl.
      rewrite Nat.add_0_r. do 2 f_equal.
      apply imap_ext. intros i v _. simpl. f_equal. lia.
Qed.

(** X7. Whatever the callback does, an array that the earlier customMap
    returns has no hole, and the callback has been invoked exactly once
    for every index of the result, present in the receiver or not: on the
    indices [0], [1], ... in this order, with the call-context
    [undefined]. *)
Theorem customMap2_result_dense callback m :
  match customMap2 callback m with
  | (Normal out, m') =>
      dense out ∧
      ∃ vs, length vs = length out ∧
            trace m' = trace m ++ imap (λ i v, Call VUndefined v i) vs
  | (Throw _, _) => True
  end.
Proof.
  unfold customMap2, bind at 1, get_this.
  pose proof (customMap2_loop_dense callback
                (length (this_arr (heap m))) 0 [] m) as H.
  destruct (customMap2_loop _ _ _ _ _) as [[out|] m']; [|done].
  destruct H as (Hd & vs & Hvs & Hlen & Htrace);
    [intros i Hi; simpl in Hi; lia|].
  split; [done|]. exists vs. simpl in Hlen. split; [lia|done].
Qed.

(** ** The indices a traversal visits *)

Lemma visits_ret {A} thisArg k n (a : A) : visits (G:=G) thisArg k n (ret a).
Proof.
  intros m. exists []. simpl. rewrite app_nil_r.
  split_and!; [done|constructor|constructor].
Qed.

Lemma visits_get_this thisArg k n : visits (G:=G) thisArg k n get_this.
Proof.
  intros m. exists []. simpl. rewrite app_nil_r.
  split_and!; [done|constructor|constructor].
Qed.

Lemma visits_weaken {A} thisArg k n k' n' (c : M G A) :
  k ≤ k' → k' + n' ≤ k + n → visits thisArg k' n' c → visits thisArg k n c.
Proof.
  intros Hk Hn Hc m. destruct (Hc m) as (new & Ht & Hs & Hall).
  exists new. split_and!; [done..|].
  eapply Forall_impl; [exact Hall|]. simpl. intros c' [? ?]. split; [lia|done].
Qed.

Lemma visits_bind {A B} thisArg k a b (c : M G A) (f : A → M G B) :
  visits thisArg k a c → (∀ x, visits thisArg (k + a) b (f x)) →
  visits thisArg k (a + b) (bind c f).
Proof.
  intros Hc Hf m. unfold bind. destruct (Hc m) as (new1 & Ht1 & Hs1 & Hall1).
  destruct (c m) as [[x|x] m1]; simpl in *.
  - destruct (Hf x m1) as (new2 & Ht2 & Hs2 & Hall2).
    exists (new1 ++ new2). split_and!.
    + by rewrite Ht2, Ht1, app_assoc.
    + rewrite fmap_app. apply StronglySorted_app. split_and!; [|done..].
      intros i1 i2 [c1 [-> Hc1]]%list_elem_of_fmap
        [c2 [-> Hc2]]%list_elem_of_fmap.
      rewrite Forall_forall in Hall1, Hall2.
      specialize (Hall1 c1 Hc1). specialize (Hall2 c2 Hc2). lia.
    + apply Forall_app. split.
      * eapply Forall_impl; [exact Hall1|]. simpl. intros ? [? ?].
        split; [lia|done].
      * eapply Forall_impl; [exact Hall2|]. simpl. intros ? [? ?].
        split; [lia|done].
  - exists new1. split_and!; [done..|].
    eapply Forall_impl; [exact Hall1|]. simpl. intros ? [? ?].
    split; [lia|done].
Qed.

Lemma visits_method_call callback thisArg v k :
  visits thisArg k 1 (method_call callback thisArg v k).
Proof.
  assert (Hnone : ∀ m msg, ∃ new,
            trace (throw (G:=G) (A:=value) (TypeError msg) m).2
            = trace m ++ new ∧
            StronglySorted lt (call_index <$> new) ∧
            Forall (λ c, k ≤ call_index c < k + 1 ∧ call_this c = thisArg)
              new).
  { intros m msg. exists []. simpl. rewrite app_nil_r.
    split_and!; [done|constructor|constructor]. }
  destruct callback as [f|w| |conv].
  - intros m. simpl. unfold invoke.
    destruct (f thisArg v k (heap m)) as [r h]. simpl.
    exists [Call thisArg v k]. split_and!; [done| |].
    + repeat constructor.
    + repeat constructor; simpl; lia.
  - intros m. destruct w; apply Hnone.
  - intros m. apply Hnone.
  - intros m. apply Hnone.
Qed.

Lemma visits_customMap_loop callback thisArg n k newArr :
  visits thisArg k n (customMap_loop callback thisArg n k newArr).
Proof.
  revert k newArr. induction n as [|n IH]; intros k newArr;
    [apply visits_ret|].
  cbn [customMap_loop].
  apply (visits_bind thisArg k 0 (S n)); [apply visits_get_this|].
  intros currentArray. rewrite Nat.add_0_r.
  destruct (index_in k currentArray).
  - apply (visits_bind thisArg k 1 n); [apply visits_method_call|].
    intros x. rewrite Nat.add_1_r. apply IH.
  - apply (visits_weaken thisArg k (S n) (S k) n); [lia..|apply IH].
Qed.

Lemma visits_customFilter_loop callback thisArg n k newArr :
  visits thisArg k n (customFilter_loop callback thisArg n k newArr).
Proof.
  revert k newArr. induction n as [|n IH]; intros k newArr;
    [apply visits_ret|].
  cbn [customFilter_loop].
  apply (visits_bind thisArg k 0 (S n)); [apply visits_get_this|].
  intros currentArray. rewrite Nat.add_0_r.
  destruct (index_in k currentArray).
  - apply (visits_bind thisArg k 1 n); [apply visits_method_call|].
    intros x. rewrite Nat.add_1_r. destruct (truthy x); [|apply IH].
    apply (visits_bind thisArg (S k) 0 n); [apply visits_get_this|].
    intros ?. rewrite Nat.add_0_r. apply IH.
  - apply (visits_weaken thisArg k (S n) (S k) n); [lia..|apply IH].
Qed.

Lemma visits_customFind_loop callback thisArg n k :
  visits thisArg k n (customFind_loop callback thisArg n k).
Proof.
  revert k. induction n as [|n IH]; intros k; [apply visits_ret|].
  cbn [customFind_loop].
  apply (visits_bind thisArg k 0 (S n)); [apply visits_get_this|].
  intros currentArray. rewrite Nat.add_0_r.
  destruct (index_in k currentArray).
  - apply (visits_bind thisArg k 1 n); [apply visits_method_call|].
    intros x. rewrite Nat.add_1_r. destruct (truthy x); [|apply IH].
    apply (visits_bind thisArg (S k) 0 n); [apply visits_get_this|].
    intros ?. apply visits_ret.
  - apply (visits_weaken thisArg k (S n) (S k) n); [lia..|apply IH].
Qed.

(** X8. Whatever the callback does, customMap, customFilter and customFind
    invoke it with the call-context they were given, on indices below the
    length the receiver had when the method was called, each index at most
    once and in ascending order: what a callback appends to the array
    during the traversal is not visited. *)
Theorem traversal_visits callback thisArg m :
  visited_below thisArg (length (this_arr (heap m))) m
    (customMap callback thisArg m).2 ∧
  visited_below thisArg (length (this_arr (heap m))) m
    (customFilter callback thisArg m).2 ∧
  visited_below thisArg (length (this_arr (heap m))) m
    (customFind callback thisArg m).2.
Proof.
  assert (Hnone : ∀ h, visited_below thisArg (length (this_arr (heap m))) m
                         (Machine h (trace m))).
  { intros h. exists []. simpl. rewrite app_nil_r.
    split_and!; [done|constructor|constructor]. }
  assert (Hloop : ∀ {A} (c : M G A),
            visits thisArg 0 (length (this_arr (heap m))) c →
            visited_below thisArg (length (this_arr (heap m))) m (c m).2).
  { intros A c Hc. destruct (Hc m) as (new & Ht & Hs & Hall).
    exists new. split_and!; [done..|].
    eapply Forall_impl; [exact Hall|]. simpl. intros ? [? ?].
    split; [lia|done]. }
  split_and!.
  - unfold customMap. destruct (negb _);
    [destruct (rejection_run (A:=array) callback m) as (x & h & -> & _);
     apply Hnone|].
    unfold bind at 1 2, get_this.
    apply (Hloop _ (customMap_loop callback thisArg _ 0 _)).
    apply visits_customMap_loop.
  - unfold customFilter. destruct (negb _);
    [destruct (rejection_run (A:=array) callback m) as (x & h & -> & _);
     apply Hnone|].
    unfold bind at 1, get_this.
    apply (Hloop _ (customFilter_loop callback thisArg _ 0 _)).
    apply visits_customFilter_loop.
  - unfold customFind, bind at 1, get_this.
    apply (Hloop _ (customFind_loop callback thisArg _ 0)).
    apply visits_customFind_loop.
Qed.

(** ** A callback that throws *)

Lemma present_from_drop_nil k src pre (iv : nat * value) post :
  length src ≤ k → present_from k (drop k src) ≠ pre ++ iv :: post.
Proof. intros Hk. rewrite drop_ge by done. simpl. by destruct pre. Qed.

Lemma customMap_loop_throws f thisArg src e n k newArr t pre i v post x :
  n = length src - k → k ≤ length src →
  present_from k (drop k src) = pre ++ (i, v) :: post →
  Forall (λ iv, ∃ y, f thisArg iv.2 iv.1 src = Normal y) pre →
  f thisArg v i src = Throw x →
  customMap_loop (Fn (partial_fn f)) thisArg n k newArr
    (Machine (Store src e) t)
  = (Throw x,
     Machine (Store src e) (t ++ calls_of thisArg (pre ++ [(i, v)]))).
Proof.
  revert k newArr t pre. induction n as [|n IH];
    intros k newArr t pre Hn Hk Hpre Hok Hx.
  - by apply present_from_drop_nil in Hpre; [|lia].
  - destruct (lookup_lt_is_Some_2 src k) as [o Ho]; [lia|].
    rewrite (present_from_drop _ _ _ Ho) in Hpre.
    rewrite customMap_loop_S. cbn [heap this_arr].
    rewrite (index_in_lookup _ _ _ Ho).
    destruct o as [w|]; cbn [bool_decide decide_rel is_Some_dec];
      [|by apply IH; [lia..| | |]].
    rewrite (js_get_lookup _ _ _ Ho).
    unfold method_call, invoke, partial_fn. cbn [heap this_arr trace].
    destruct pre as [|iv pre]; simpl in Hpre.
    + injection Hpre as -> -> _. by rewrite Hx.
    + injection Hpre as <- Hpre. apply Forall_cons in Hok as [[y Hy] Hok].
      simpl in Hy. rewrite Hy.
      rewrite (IH (S k) _ _ pre) by (done || lia).
      simpl. by rewrite <-app_assoc.
Qed.

Lemma customFilter_loop_throws f thisArg src e n k newArr t pre i v post x :
  n = length src - k → k ≤ length src →
  present_from k (drop k src) = pre ++ (i, v) :: post →
  Forall (λ iv, ∃ y, f thisArg iv.2 iv.1 src = Normal y) pre →
  f thisArg v i src = Throw x →
  customFilter_loop (Fn (partial_fn f)) thisArg n k newArr
    (Machine (Store src e) t)
  = (Throw x,
     Machine (Store src e) (t ++ calls_of thisArg (pre ++ [(i, v)]))).
Proof.
  revert k newArr t pre. induction n as [|n IH];
    intros k newArr t pre Hn Hk Hpre Hok Hx.
  - by apply present_from_drop_nil in Hpre; [|lia].
  - destruct (lookup_lt_is_Some_2 src k) as [o Ho]; [lia|].
    rewrite (present_from_drop _ _ _ Ho) in Hpre.
    cbn [customFilter_loop]. unfold bind at 1, get_this at 1.
    cbn [heap this_arr]. rewrite (index_in_lookup _ _ _ Ho).
    destruct o as [w|]; cbn [bool_decide decide_rel is_Some_dec];
      [|by apply IH; [lia..| | |]].
    rewrite (js_get_lookup _ _ _ Ho).
    unfold bind at 1, method_call, invoke, partial_fn.
    cbn [heap this_arr trace].
    destruct pre as [|iv pre]; simpl in Hpre.
    + injection Hpre as -> -> _. by rewrite Hx.
    + injection Hpre as <- Hpre. apply Forall_cons in Hok as [[y Hy] Hok].
      simpl in Hy. rewrite Hy. destruct (truthy y).
      * unfold bind at 1, get_this at 1. cbn [heap this_arr].
        rewrite (IH (S k) _ _ pre) by (done || lia).
        simpl. by rewrite <-app_assoc.
      * rewrite (IH (S k) _ _ pre) by (done || lia).
        simpl. by rewrite <-app_assoc.
Qed.

Lemma customFind_loop_throws f thisArg src e n k t pre i v post x :
  n = length src - k → k ≤ length src →
  present_from k (drop k src) = pre ++ (i, v) :: post →
  Forall (λ iv, ∃ y, f thisArg iv.2 iv.1 src = Normal y ∧ truthy y = false)
    pre →
  f thisArg v i src = Throw x →
  customFind_loop (Fn (partial_fn f)) thisArg n k (Machine (Store src e) t)
  = (Throw x,
     Machine (Store src e) (t ++ calls_of thisArg (pre ++ [(i, v)]))).
Proof.
  revert k t pre. induction n as [|n IH]; intros k t pre Hn Hk Hpre Hok Hx.
  - by apply present_from_drop_nil in Hpre; [|lia].
  - destruct (lookup_lt_is_Some_2 src k) as [o Ho]; [lia|].
    rewrite (present_from_drop _ _ _ Ho) in Hpre.
    cbn [customFind_loop]. unfold bind at 1, get_this at 1.
    cbn [heap this_arr]. rewrite (index_in_lookup _ _ _ Ho).
    destruct o as [w|]; cbn [bool_decide decide_rel is_Some_dec];
      [|by apply IH; [lia..| | |]].
    rewrite (js_get_lookup _ _ _ Ho).
    unfold bind at 1, method_call, invoke, partial_fn.
    cbn [heap this_arr trace].
    destruct pre as [|iv pre]; simpl in Hpre.
    + injection Hpre as -> -> _. by rewrite Hx.
    + injection Hpre as <- Hpre.
      apply Forall_cons in Hok as [(y & Hy & Hfalse) Hok].
      simpl in Hy. rewrite Hy, Hfalse.
      rewrite (IH (S k) _ pre) by (done || lia).
      simpl. by rewrite <-app_assoc.
Qed.

(** X9. What a callback throws reaches the caller unchanged and ends the
    traversal.  When a callback without side effects returns on the present
    entries [pre] and throws [x] on the next present entry [(i, v)],
    customMap and customFilter complete with [x] after the invocations on
    [pre] and on [(i, v)] and none after; so does customFind when no value
    returned on [pre] is truthy. *)
Theorem callback_throw_propagates
    (f : value → value → nat → array → completion value)
    thisArg src e t pre i v post x :
  present src = pre ++ (i, v) :: post →
  Forall (λ iv, ∃ y, f thisArg iv.2 iv.1 src = Normal y) pre →
  f thisArg v i src = Throw x →
  customMap (Fn (partial_fn f)) thisArg (Machine (Store src e) t)
  = (Throw x,
     Machine (Store src e) (t ++ calls_of thisArg (pre ++ [(i, v)]))) ∧
  customFilter (Fn (partial_fn f)) thisArg (Machine (Store src e) t)
  = (Throw x,
     Machine (Store src e) (t ++ calls_of thisArg (pre ++ [(i, v)]))) ∧
  (Forall (λ iv, ∃ y, f thisArg iv.2 iv.1 src = Normal y ∧ truthy y = false)
     pre →
   customFind (Fn (partial_fn f)) thisArg (Machine (Store src e) t)
   = (Throw x,
      Machine (Store src e) (t ++ calls_of thisArg (pre ++ [(i, v)])))).
Proof.
  intros Hpre Hok Hx. split_and!.
  - unfold customMap. cbn [typeof String.eqb negb].
    unfold bind, get_this. cbn [heap this_arr].
    by apply (customMap_loop_throws f thisArg src e (length src) 0 _ t
                pre i v post x); [lia|lia|..].
  - unfold customFilter. cbn [typeof String.eqb negb].
    unfold bind, get_this. cbn [heap this_arr].
    by apply (customFilter_loop_throws f thisArg src e (length src) 0 _ t
                pre i v post x); [lia|lia|..].
  - intros Hfalse. unfold customFind, bind, get_this. cbn [heap this_arr].
    by apply (customFind_loop_throws f thisArg src e (length src) 0 t
                pre i v post x); [lia|lia|..].
Qed.

(** ** customFind against customFilter *)

Lemma head_filter_list_find {A} (P : A → Prop) `{!∀ x, Decision (P x)}
    (l : list A) :
  head (filter P l) = snd <$> list_find P l.
Proof.
  induction l as [|a l IH]; [done|].
  rewrite filter_cons. cbn [list_find]. destruct (decide (P a)); [done|].
  rewrite IH. by destruct (list_find P l) as [[j b]|].
Qed.

Lemma js_get_dense_head (vs : list value) :
  js_get (Some <$> vs) 0 = default VUndefined (head vs).
Proof. by destruct vs. Qed.

(** X10. With the same predicate, customFind returns the first element of
    the array customFilter returns, and [undefined] when that array is
    empty. *)
Theorem customFind_head_of_customFilter
    (p : value → value → nat → array → value) thisArg src e t :
  ∃ out,
    (customFilter (Fn (pure_fn p)) thisArg (Machine (Store src e) t)).1
    = Normal out ∧
    (customFind (Fn (pure_fn p)) thisArg (Machine (Store src e) t)).1
    = Normal (js_get out 0).
Proof.
  eexists. split; [by rewrite customFilter_pure|].
  rewrite customFind_pure, js_get_dense_head.
  rewrite !head_lookup, list_lookup_fmap, <-head_lookup.
  rewrite head_filter_list_find.
  by destruct (list_find _ _) as [[j iv]|].
Qed.

(** ** Callbacks that look at the element only *)

Lemma filter_present_values (q : value → value) thisArg src0 k src :
  (filter (selects (λ _ v _ _, q v) thisArg src0) (present_from k src)).*2
  = filter (λ v, truthy (q v)) (omap id src).
Proof.
  revert k. induction src as [|[w|] src IH]; intros k; simpl; [done| |done].
  rewrite !filter_cons. unfold selects at 1. simpl.
  destruct (decide (truthy (q w))); simpl; by rewrite IH.
Qed.

Lemma omap_id_Some (vs : list value) : omap id (Some <$> vs) = vs.
Proof. induction vs as [|v vs IH]; [done|]. simpl. f_equal. exact IH. Qed.

Lemma filter_twice {A} (P : A → Prop) `{!∀ x, Decision (P x)} (l : list A) :
  filter P (filter P l) = filter P l.
Proof.
  induction l as [|a l IH]; [done|]. rewrite filter_cons.
  destruct (decide (P a)); [|done]. by rewrite filter_cons_True, IH.
Qed.

(** X11. For a predicate that looks at the element only, customFilter
    returns the present elements the predicate accepts, and filtering its
    result again with that predicate returns the same array. *)
Theorem customFilter_idempotent (q : value → value) thisArg src e t :
  ∃ out,
    (customFilter (Fn (pure_fn (λ _ v _ _, q v))) thisArg
       (Machine (Store src e) t)).1 = Normal out ∧
    out = Some <$> filter (λ v, truthy (q v)) (omap id src) ∧
    ∀ thisArg' e' t',
      (customFilter (Fn (pure_fn (λ _ v _ _, q v))) thisArg'
         (Machine (Store out e') t')).1 = Normal out.
Proof.
  eexists. split_and!.
  - rewrite customFilter_pure. simpl. unfold present.
    by rewrite filter_present_values.
  - done.
  - intros thisArg' e' t'. rewrite customFilter_pure. simpl. unfold present.
    by rewrite filter_present_values, omap_id_Some, filter_twice.
Qed.

Lemma map_result_values (f : value → value) thisArg src :
  map_result (λ _ v _ _, f v) thisArg src = (fmap (M:=option) f) <$> src.
Proof.
  apply list_eq. intros i.
  by rewrite map_result_lookup, list_lookup_fmap.
Qed.

(** X12. For callbacks that look at the element only, customMap applies
    the callback under the [Some] of every present index and keeps the
    holes; so mapping with [(x) => x] returns a copy of the array, and
    mapping with [f] and then with [g] returns what mapping with their
    composition returns. *)
Theorem customMap_functor (f g : value → value) thisArg src e t :
  (customMap (Fn (pure_fn keep)) thisArg (Machine (Store src e) t)).1
  = Normal src ∧
  ∃ out,
    (customMap (Fn (pure_fn (λ _ v _ _, f v))) thisArg
       (Machine (Store src e) t)).1 = Normal out ∧
    out = (fmap (M:=option) f) <$> src ∧
    ∀ thisArg' e' t',
      (customMap (Fn (pure_fn (λ _ v _ _, g v))) thisArg'
         (Machine (Store out e') t')).1
      = (customMap (Fn (pure_fn (λ _ v _ _, g (f v)))) thisArg
           (Machine (Store src e) t)).1.
Proof.
  split.
  - rewrite customMap_pure. simpl. f_equal.
    change keep with (λ (_ v : value) (_ : nat) (_ : array), id v).
    rewrite map_result_values. apply list_eq. intros i.
    rewrite list_lookup_fmap. destruct (src !! i) as [[w|]|]; done.
  - eexists. split_and!.
    + rewrite customMap_pure. simpl. by rewrite map_result_values.
    + done.
    + intros thisArg' e' t'. rewrite !customMap_pure. simpl.
      rewrite !map_result_values, <-list_fmap_compose. f_equal.
      apply list_fmap_ext. intros _ [w|] _; done.
Qed.

(** ** customFind and a callback that is not a function *)

Lemma method_call_not_function v thisArg w i m :
  ∃ msg, method_call (NotFn v) thisArg w i m = (Throw (TypeError msg), m).
Proof. destruct v; by eexists. Qed.

Lemma customFind_loop_not_function v thisArg src e n k t :
  n = length src - k → k ≤ length src →
  customFind_loop (NotFn v) thisArg n k (Machine (Store src e) t)
  = match present_from k (drop k src) with
    | [] => (Normal VUndefined, Machine (Store src e) t)
    | (i, w) :: _ => method_call (NotFn v) thisArg w i (Machine (Store src e) t)
    end.
Proof.
  revert k. induction n as [|n IH]; intros k Hn Hk.
  - by rewrite drop_ge by lia.
  - destruct (lookup_lt_is_Some_2 src k) as [o Ho]; [lia|].
    rewrite (present_from_drop _ _ _ Ho).
    cbn [customFind_loop]. unfold bind at 1, get_this at 1.
    cbn [heap this_arr]. rewrite (index_in_lookup _ _ _ Ho).
    destruct o as [w|]; cbn [bool_decide decide_rel is_Some_dec];
      [|apply IH; lia].
    rewrite (js_get_lookup _ _ _ Ho). unfold bind.
    by destruct (method_call_not_function v thisArg w k
                   (Machine (Store src e) t)) as [msg ->].
Qed.

(** X13. With a callback that is not a function customFind raises a
    TypeError exactly when the array has a present element: it skips the
    holes before the first present index, fails at the call it attempts
    there, and leaves the array as it was; on an array without present
    element it returns [undefined]. *)
Theorem customFind_not_function v thisArg src e t :
  customFind (NotFn v) thisArg (Machine (Store src e) t)
  = match present src with
    | [] => (Normal VUndefined, Machine (Store src e) t)
    | (i, w) :: _ => method_call (NotFn v) thisArg w i (Machine (Store src e) t)
    end ∧
  ∃ msg, ∀ w i m,
    method_call (NotFn v) thisArg w i m = (Throw (TypeError msg), m).
Proof.
  split.
  - unfold customFind, bind, get_this. cbn [heap this_arr].
    pose proof (customFind_loop_not_function v thisArg src e
                  (length src) 0 t) as H.
    rewrite Nat.sub_0_r in H. by apply H; [|lia].
  - destruct v; by eexists.
Qed.

(** ** The call-context *)

Lemma same_effect_ret {A} (a : A) : same_effect (G:=G) (ret a) (ret a).
Proof. by intros m1 m2 Hm. Qed.

Lemma same_effect_get_this : same_effect (G:=G) get_this get_this.
Proof. intros m1 m2 Hm. simpl. by rewrite Hm. Qed.

Lemma same_effect_bind {A B} (c1 c2 : M G A) (f1 f2 : A → M G B) :
  same_effect c1 c2 → (∀ a, same_effect (f1 a) (f2 a)) →
  same_effect (bind c1 f1) (bind c2 f2).
Proof.
  intros Hc Hf m1 m2 Hm. unfold bind. destruct (Hc m1 m2 Hm) as [Hr Hh].
  destruct (c1 m1) as [[a1|x1] m1'], (c2 m2) as [[a2|x2] m2'];
    simpl in *; try discriminate; injection Hr as ->; [by apply Hf|done].
Qed.

Lemma same_effect_method_call (f : fn G) thisArg thisArg' v k :
  ignores_this f →
  same_effect (method_call (Fn f) thisArg v k)
              (method_call (Fn f) thisArg' v k).
Proof.
  intros Hf m1 m2 Hm. simpl. unfold invoke.
  rewrite Hm, (Hf thisArg thisArg').
  by destruct (f thisArg' v k (heap m2)).
Qed.

Lemma same_effect_customMap_loop (f : fn G) thisArg thisArg' n k newArr :
  ignores_this f →
  same_effect (customMap_loop (Fn f) thisArg n k newArr)
              (customMap_loop (Fn f) thisArg' n k newArr).
Proof.
  intros Hf. revert k newArr. induction n as [|n IH]; intros k newArr;
    [apply same_effect_ret|].
  cbn [customMap_loop]. apply same_effect_bind; [apply same_effect_get_this|].
  intros currentArray. destruct (index_in k currentArray); [|apply IH].
  apply same_effect_bind; [by apply same_effect_method_call|].
  intros x. apply IH.
Qed.

Lemma same_effect_customFilter_loop (f : fn G) thisArg thisArg' n k newArr :
  ignores_this f →
  same_effect (customFilter_loop (Fn f) thisArg n k newArr)
              (customFilter_loop (Fn f) thisArg' n k newArr).
Proof.
  intros Hf. revert k newArr. induction n as [|n IH]; intros k newArr;
    [apply same_effect_ret|].
  cbn [customFilter_loop].
  apply same_effect_bind; [apply same_effect_get_this|].
  intros currentArray. destruct (index_in k currentArray); [|apply IH].
  apply same_effect_bind; [by apply same_effect_method_call|].
  intros x. destruct (truthy x); [|apply IH].
  apply same_effect_bind; [apply same_effect_get_this|].
  intros ?. apply IH.
Qed.

Lemma same_effect_customFind_loop (f : fn G) thisArg thisArg' n k :
  ignores_this f →
  same_effect (customFind_loop (Fn f) thisArg n k)
              (customFind_loop (Fn f) thisArg' n k).
Proof.
  intros Hf. revert k. induction n as [|n IH]; intros k;
    [apply same_effect_ret|].
  cbn [customFind_loop].
  apply same_effect_bind; [apply same_effect_get_this|].
  intros currentArray. destruct (index_in k currentArray); [|apply IH].
  apply same_effect_bind; [by apply same_effect_method_call|].
  intros x. destruct (truthy x); [|apply IH].
  apply same_effect_bind; [apply same_effect_get_this|].
  intros ?. apply same_effect_ret.
Qed.

(** X14. For a function that does not look at its call-context, as an
    arrow function does not, the [thisArg] passed to customMap,
    customFilter or customFind has no effect: the completion and the store
    after the call are the same for any two values of it. *)
Theorem thisArg_without_effect (f : fn G) thisArg thisArg' m :
  ignores_this f →
  ((customMap (Fn f) thisArg m).1 = (customMap (Fn f) thisArg' m).1 ∧
   heap (customMap (Fn f) thisArg m).2
   = heap (customMap (Fn f) thisArg' m).2) ∧
  ((customFilter (Fn f) thisArg m).1 = (customFilter (Fn f) thisArg' m).1 ∧
   heap (customFilter (Fn f) thisArg m).2
   = heap (customFilter (Fn f) thisArg' m).2) ∧
  ((customFind (Fn f) thisArg m).1 = (customFind (Fn f) thisArg' m).1 ∧
   heap (customFind (Fn f) thisArg m).2
   = heap (customFind (Fn f) thisArg' m).2).
Proof.
  intros Hf. split; [|split].
  - exact (same_effect_customMap_loop f thisArg thisArg'
             (length (this_arr (heap m))) 0
             (new_Array (length (this_arr (heap m)))) Hf m m eq_refl).
  - exact (same_effect_customFilter_loop f thisArg thisArg'
             (length (this_arr (heap m))) 0 [] Hf m m eq_refl).
  - exact (same_effect_customFind_loop f thisArg thisArg'
             (length (this_arr (heap m))) 0 Hf m m eq_refl).
Qed.

(** ** Callbacks with a state of their own *)

Lemma index_in_true k src :
  index_in k src = true → ∃ w, src !! k = Some (Some w).
Proof.
  unfold index_in. destruct (src !! k) as [[w|]|]; [|done..]. by exists w.
Qed.

Lemma sublist_drop_S {A} (l src : list A) k :
  l `sublist_of` drop (S k) src → l `sublist_of` drop k src.
Proof.
  intros Hl. etrans; [exact Hl|].
  replace (drop (S k) src) with (drop 1 (drop k src))
    by (rewrite drop_drop; f_equal; lia).
  apply sublist_drop.
Qed.

Lemma customFilter_loop_sublist callback thisArg n k newArr m :
  preserves_array callback →
  match customFilter_loop callback thisArg n k newArr m with
  | (Normal out, _) =>
      ∃ l, out = newArr ++ l ∧ l `sublist_of` drop k (this_arr (heap m))
  | (Throw _, _) => True
  end.
Proof.
  intros Hcb. revert k newArr m. induction n as [|n IH]; intros k newArr m.
  - exists []. simpl. rewrite app_nil_r. split; [done|apply sublist_nil_l].
  - cbn [customFilter_loop]. unfold bind at 1, get_this.
    destruct (index_in k (this_arr (heap m))) eqn:Hin.
    + apply index_in_true in Hin as [w Hw]. unfold bind at 1.
      pose proof (frames_method_call callback thisArg
                    (js_get (this_arr (heap m)) k) k Hcb m) as Hfr.
      destruct (method_call _ _ _ _ _) as [[x|x] m']; [|done].
      simpl in Hfr. destruct (truthy x).
      * unfold bind at 1.
        specialize (IH (S k)
          (native_push newArr (js_get (this_arr (heap m')) k)) m').
        destruct (customFilter_loop _ _ _ _ _ _) as [[out|] ?]; [|done].
        destruct IH as (l & -> & Hl). rewrite Hfr in Hl |- *.
        rewrite (js_get_lookup _ _ _ Hw).
        exists (Some w :: l). unfold native_push. rewrite <-app_assoc.
        split; [done|]. rewrite (drop_S _ _ _ Hw). by apply sublist_skip.
      * specialize (IH (S k) newArr m').
        destruct (customFilter_loop _ _ _ _ _ _) as [[out|] ?]; [|done].
        destruct IH as (l & -> & Hl). rewrite Hfr in Hl.
        exists l. split; [done|]. by apply sublist_drop_S.
    + specialize (IH (S k) newArr m).
      destruct (customFilter_loop _ _ _ _ _ _) as [[out|] ?]; [|done].
      destruct IH as (l & -> & Hl).
      exists l. split; [done|]. by apply sublist_drop_S.
Qed.

Lemma customFind_loop_element callback thisArg n k m :
  preserves_array callback →
  match customFind_loop callback thisArg n k m with
  | (Normal v, _) => v = VUndefined ∨ Some v ∈ this_arr (heap m)
  | (Throw _, _) => True
  end.
Proof.
  intros Hcb. revert k m. induction n as [|n IH]; intros k m.
  - by left.
  - cbn [customFind_loop]. unfold bind at 1, get_this.
    destruct (index_in k (this_arr (heap m))) eqn:Hin; [|apply IH].
    apply index_in_true in Hin as [w Hw]. unfold bind at 1.
    pose proof (frames_method_call callback thisArg
                  (js_get (this_arr (heap m)) k) k Hcb m) as Hfr.
    destruct (method_call _ _ _ _ _) as [[x|x] m']; [|done].
    simpl in Hfr. destruct (truthy x).
    + unfold bind, get_this, ret. rewrite Hfr, (js_get_lookup _ _ _ Hw).
      right. by eapply list_elem_of_lookup_2.
    + specialize (IH (S k) m'). rewrite Hfr in IH. apply IH.
Qed.

(** X15. For every callback that leaves the array as it found it, also
    one that has a state of its own, answers differently from call to call
    or throws, an array that customFilter returns is a subsequence of the
    receiver: elements of the receiver, in their order; and a value that
    customFind returns is [undefined] or an element of the receiver. *)
Theorem customFilter_subsequence callback thisArg m :
  preserves_array callback →
  match customFilter callback thisArg m with
  | (Normal out, _) => out `sublist_of` this_arr (heap m)
  | (Throw _, _) => True
  end ∧
  match customFind callback thisArg m with
  | (Normal v, _) => v = VUndefined ∨ Some v ∈ this_arr (heap m)
  | (Throw _, _) => True
  end.
Proof.
  intros Hcb. split.
  - unfold customFilter. destruct (negb _);
    [by destruct (rejection_run (A:=array) callback m) as (x & h & -> & _)|].
    unfold bind at 1, get_this.
    pose proof (customFilter_loop_sublist callback thisArg
                  (length (this_arr (heap m))) 0 [] m Hcb) as H.
    destruct (customFilter_loop _ _ _ _ _ _) as [[out|] ?]; [|done].
    by destruct H as (l & -> & Hl).
  - unfold customFind, bind at 1, get_this.
    by apply customFind_loop_element.
Qed.

Lemma index_in_js_set newArr k x i :
  k < length newArr →
  index_in i (js_set newArr k x)
  = if decide (i = k) then true else index_in i newArr.
Proof.
  intros Hk. unfold js_set, index_in. rewrite decide_True by done.
  destruct (decide (i = k)) as [->|Hne].
  - by rewrite list_lookup_insert_eq.
  - by rewrite list_lookup_insert_ne.
Qed.

Lemma index_in_ge src i : length src ≤ i → index_in i src = false.
Proof. intros Hi. unfold index_in. by rewrite lookup_ge_None_2. Qed.

Lemma customMap_loop_shape callback thisArg n k newArr m :
  preserves_array callback →
  n = length (this_arr (heap m)) - k → k ≤ length (this_arr (heap m)) →
  length newArr = length (this_arr (heap m)) →
  (∀ i, i < k → index_in i newArr = index_in i (this_arr (heap m))) →
  (∀ i, k ≤ i → index_in i newArr = false) →
  match customMap_loop callback thisArg n k newArr m with
  | (Normal out, _) => ∀ i, index_in i out = index_in i (this_arr (heap m))
  | (Throw _, _) => True
  end.
Proof.
  intros Hcb. revert k newArr m.
  induction n as [|n IH]; intros k newArr m Hn Hk Hlen Hlow Hhigh.
  - simpl. intros i. destruct (decide (i < k)); [by apply Hlow|].
    rewrite Hhigh by lia. symmetry. apply index_in_ge. lia.
  - rewrite customMap_loop_S.
    destruct (index_in k (this_arr (heap m))) eqn:Hin.
    + pose proof (frames_method_call callback thisArg
                    (js_get (this_arr (heap m)) k) k Hcb m) as Hfr.
      destruct (method_call _ _ _ _ _) as [[x|x] m']; [|done].
      simpl in Hfr. rewrite <-Hfr in *.
      apply IH; [lia|lia|rewrite js_set_length; lia| |].
      * intros i Hi. rewrite index_in_js_set by lia.
        destruct (decide (i = k)) as [->|]; [done|]. apply Hlow. lia.
      * intros i Hi. rewrite index_in_js_set by lia.
        rewrite decide_False by lia. apply Hhigh. lia.
    + apply IH; [lia|lia|done| |].
      * intros i Hi. destruct (decide (i = k)) as [->|].
        -- rewrite Hin. by apply Hhigh.
        -- apply Hlow. lia.
      * intros i Hi. apply Hhigh. lia.
Qed.

(** X16. For every callback that leaves the array as it found it, also
    one that has a state of its own, an array that customMap returns has
    the holes of the receiver and no other: an index is present in the
    result exactly when it is present in the receiver. *)
Theorem customMap_keeps_holes callback thisArg m :
  preserves_array callback →
  match customMap callback thisArg m with
  | (Normal out, _) => ∀ i, index_in i out = index_in i (this_arr (heap m))
  | (Throw _, _) => True
  end.
Proof.
  intros Hcb. unfold customMap. destruct (negb _);
    [by destruct (rejection_run (A:=array) callback m) as (x & h & -> & _)|].
  unfold bind at 1 2, get_this.
  apply customMap_loop_shape; [done|lia|lia| | |].
  - apply length_replicate.
  - intros i Hi. lia.
  - intros i _. unfold new_Array, index_in.
    destruct (replicate _ _ !! i) as [o|] eqn:Ho; [|done].
    by apply lookup_replicate in Ho as [-> _].
Qed.

(** ** Callbacks that are not functions *)

(** X17. customMap and customFilter reject, with a TypeError and before
    anything else happens, every callback that is not a function and whose
    conversion to a string is quiet: every primitive, for which the message
    is [`${v} is not a function`], every symbol, and every object whose
    [toString] leaves the store alone and throws nothing but a TypeError.
    The machine is the one the call started in: the array is unchanged and
    nothing has been invoked. *)
Theorem invalid_callback_rejected callback thisArg m :
  typeof callback ≠ "function"%string → converts_quietly callback →
  ∃ msg,
    customMap callback thisArg m = (Throw (TypeError msg), m) ∧
    customFilter callback thisArg m = (Throw (TypeError msg), m) ∧
    ∀ v, callback = NotFn v → msg = to_string v +:+ " is not a function".
Proof.
  intros Hty Hquiet. destruct m as [h t]. unfold customMap, customFilter.
  destruct callback as [f|v| |conv]; [done| | |].
  - exists (to_string v +:+ " is not a function"). split_and!.
    + by destruct v.
    + by destruct v.
    + by intros v' [= ->].
  - by eexists.
  - change (negb (String.eqb (typeof (NotFnObject conv)) "function"))
      with true.
    unfold bind, arg_to_string. cbv iota. cbn [heap trace].
    destruct (Hquiet h) as [Hh Hx].
    destruct (conv h) as [[shown|[msg|w]] h']; simpl in *; subst h';
      [by eexists|by eexists|done].
Qed.

End Further.

(** * Worked examples *)

(** [[1, , 3].customMap(x => x)]: two invocations, the hole is kept. *)
Example customMap_sparse :
  customMap (Fn (pure_fn keep)) VUndefined
    (start [Some (VNum 1); None; Some (VNum 3)])
  = (Normal [Some (VNum 1); None; Some (VNum 3)],
     Machine (Store [Some (VNum 1); None; Some (VNum 3)] ())
       [Call VUndefined (VNum 1) 0; Call VUndefined (VNum 3) 2]).
Proof. reflexivity. Qed.

(** [["Alice", "Bob", "Charlie", "Alice"].customFilter(item => item === "Alice")] *)
Example customFilter_names :
  (customFilter (Fn (pure_fn (equals (VStr "Alice")))) VUndefined
     (start [Some (VStr "Alice"); Some (VStr "Bob"); Some (VStr "Charlie");
             Some (VStr "Alice")])).1
  = Normal [Some (VStr "Alice"); Some (VStr "Alice")].
Proof. reflexivity. Qed.

(** [[1, 2, 3, 4, 5].customFind(num => num === 3)]: three invocations. *)
Example customFind_stops :
  customFind (Fn (pure_fn (equals (VNum 3)))) VUndefined
    (start (Some ∘ VNum <$> [1; 2; 3; 4; 5]%num))
  = (Normal (VNum 3),
     Machine (Store (Some ∘ VNum <$> [1; 2; 3; 4; 5]%num) ())
       [Call VUndefined (VNum 1) 0; Call VUndefined (VNum 2) 1;
        Call VUndefined (VNum 3) 2]).
Proof. reflexivity. Qed.

(** [[1, 2, 3].customPush(4, 5)] returns 5 and the array is [1..5]. *)
Example customPush_two :
  customPush [VNum 4; VNum 5] (start (Some ∘ VNum <$> [1; 2; 3]%num))
  = (Normal 5, start (Some ∘ VNum <$> [1; 2; 3; 4; 5]%num)).
Proof. reflexivity. Qed.

(** [[1, , , 4]]: the first customPop returns 4, the second the
    [undefined] of a hole, and the length is then 2. *)
Example customPop_sparse :
  customPop (start [Some (VNum 1); None; None; Some (VNum 4)])
  = (Normal (VNum 4), start [Some (VNum 1); None; None]) ∧
  customPop (start [Some (VNum 1); None; None])
  = (Normal VUndefined, start [Some (VNum 1); None]).
Proof. split; reflexivity. Qed.

(** [[1, 2, 3].customMap("not a function")] *)
Example customMap_not_a_function :
  customMap (NotFn (VStr "not a function")) VUndefined
    (start (Some ∘ VNum <$> [1; 2; 3]%num))
  = (Throw (TypeError "not a function is not a function"),
     start (Some ∘ VNum <$> [1; 2; 3]%num)).
Proof. reflexivity. Qed.

(** With a present element a callback that is not a function makes
    customFind fail inside the loop, at the call. *)
Example customFind_not_a_function_present :
  customFind (NotFn (VStr "not callable")) VUndefined (start [Some (VNum 1)])
  = (Throw (TypeError "callback.call is not a function"),
     start [Some (VNum 1)]).
Proof. reflexivity. Qed.

(** The call at the end of filter.ts:
    [["Jalal", "Sahil"].customFilter((item) => item === "Sahil")]. *)
Example customFilter_demo :
  (customFilter (Fn (pure_fn (equals (VStr "Sahil")))) VUndefined
     (start [Some (VStr "Jalal"); Some (VStr "Sahil")])).1
  = Normal [Some (VStr "Sahil")].
Proof. reflexivity. Qed.

(** With the alternating callback, started at [true], customFilter keeps
    every other element. *)
Example customFilter_toggle :
  (customFilter (Fn toggle) VUndefined
     (Machine (Store (Some ∘ VNum <$> [1; 2; 3; 4; 5]%num) true) [])).1
  = Normal (Some ∘ VNum <$> [1; 3; 5]%num).
Proof. reflexivity. Qed.

(** * Witnesses and counterexamples *)

(** C5 at [[1, 2, 3]]. *)
Lemma customPop_remove_last_witness :
  0 < length (Some ∘ VNum <$> [1; 2; 3]%num) ∧
  ∃ src',
    customPop (start (Some ∘ VNum <$> [1; 2; 3]%num))
    = (Normal (VNum 3), start src') ∧
    length src' = 2.
Proof.
  split; [simpl; lia|].
  destruct (proj1 (customPop_remove_last (G:=unit)
                     (Some ∘ VNum <$> [1; 2; 3]%num) () []))
    as (src' & Hrun & Hlen & _); [simpl; lia|].
  exists src'. split; [exact Hrun | exact Hlen].
Defined.

(** C7 at [[].customFind("not callable")]: no error is raised. *)
Lemma customFind_not_callable_empty :
  customFind (NotFn (VStr "not callable")) VUndefined (start [])
  = (Normal VUndefined, start []).
Proof. reflexivity. Qed.

(** C8 as stated fails: [[1]] is [[9]] after each of the three traversals
    with the callback [(v, i, a) => { a[0] = 9; return v; }]. *)
Lemma callback_can_write_source :
  this_arr (heap (start [Some (VNum 1)])) = [Some (VNum 1)] ∧
  this_arr (heap (customMap (Fn overwrite_first) VUndefined
                    (start [Some (VNum 1)])).2) = [Some (VNum 9)] ∧
  this_arr (heap (customFilter (Fn overwrite_first) VUndefined
                    (start [Some (VNum 1)])).2) = [Some (VNum 9)] ∧
  this_arr (heap (customFind (Fn overwrite_first) VUndefined
                    (start [Some (VNum 1)])).2) = [Some (VNum 9)].
Proof. repeat split. Qed.

(** C8 as amended, at [[1, , 3]] and [(x) => x]. *)
Lemma source_unchanged_witness :
  this_arr (heap (customMap (Fn (pure_fn keep)) VUndefined
                    (start [Some (VNum 1); None; Some (VNum 3)])).2)
  = [Some (VNum 1); None; Some (VNum 3)] ∧
  this_arr (heap (customFilter (Fn (pure_fn keep)) VUndefined
                    (start [Some (VNum 1); None; Some (VNum 3)])).2)
  = [Some (VNum 1); None; Some (VNum 3)] ∧
  this_arr (heap (customFind (Fn (pure_fn keep)) VUndefined
                    (start [Some (VNum 1); None; Some (VNum 3)])).2)
  = [Some (VNum 1); None; Some (VNum 3)].
Proof.
  apply (source_unchanged (G:=unit) (Fn (pure_fn keep)) VUndefined
           (start [Some (VNum 1); None; Some (VNum 3)])).
  simpl. intros. reflexivity.
Defined.

(** C10 as stated fails: on the dense array [[1, 2]] and the callback
    [(v, i, a) => { a.length = 1; return v; }], which ignores its
    call-context, the current definition returns [[1, <hole>]] and the
    earlier one [[1, undefined]]. *)
Lemma customMap_definitions_differ :
  ignores_this truncate_to_one ∧
  dense [Some (VNum 1); Some (VNum 2)] ∧
  (customMap (Fn truncate_to_one) VUndefined
     (start [Some (VNum 1); Some (VNum 2)])).1
  = Normal [Some (VNum 1); None] ∧
  (customMap2 (Fn truncate_to_one)
     (start [Some (VNum 1); Some (VNum 2)])).1
  = Normal [Some (VNum 1); Some VUndefined].
Proof.
  split_and!; [done| |done..].
  intros [|[|i]] Hi; simpl in *; [done..|lia].
Qed.

(** C10 as amended, at [[1, 2, 3]] and [(x) => x]. *)
Lemma customMap_definitions_compared_witness :
  (customMap (Fn (pure_fn keep)) (VNum 7)
     (start (Some ∘ VNum <$> [1; 2; 3]%num))).1
  = (customMap2 (Fn (pure_fn keep)) (start (Some ∘ VNum <$> [1; 2; 3]%num))).1 ∧
  heap (customMap (Fn (pure_fn keep)) (VNum 7)
          (start (Some ∘ VNum <$> [1; 2; 3]%num))).2
  = heap (customMap2 (Fn (pure_fn keep))
            (start (Some ∘ VNum <$> [1; 2; 3]%num))).2.
Proof.
  apply (proj1 (customMap_definitions_compared (G:=unit))).
  - intros ? ? ? ? ?. reflexivity.
  - intros ? ? ? ? ? H. exact H.
  - intros [|[|[|i]]] Hi; simpl in *; [reflexivity..|lia].
Defined.

(** X9 at [[0, 2, 3]] and [(x) => { if (x === 2) throw "boom"; return x; }]. *)
Lemma callback_throw_propagates_witness :
  customMap (Fn (partial_fn boom_on_two)) VUndefined
    (start (Some ∘ VNum <$> [0; 2; 3]%num))
  = (Throw (Thrown (VStr "boom")),
     Machine (Store (Some ∘ VNum <$> [0; 2; 3]%num) ())
       [Call VUndefined (VNum 0) 0; Call VUndefined (VNum 2) 1]) ∧
  customFilter (Fn (partial_fn boom_on_two)) VUndefined
    (start (Some ∘ VNum <$> [0; 2; 3]%num))
  = (Throw (Thrown (VStr "boom")),
     Machine (Store (Some ∘ VNum <$> [0; 2; 3]%num) ())
       [Call VUndefined (VNum 0) 0; Call VUndefined (VNum 2) 1]) ∧
  customFind (Fn (partial_fn boom_on_two)) VUndefined
    (start (Some ∘ VNum <$> [0; 2; 3]%num))
  = (Throw (Thrown (VStr "boom")),
     Machine (Store (Some ∘ VNum <$> [0; 2; 3]%num) ())
       [Call VUndefined (VNum 0) 0; Call VUndefined (VNum 2) 1]).
Proof.
  destruct (callback_throw_propagates (G:=unit) boom_on_two VUndefined
              (Some ∘ VNum <$> [0; 2; 3]%num) () []
              [(0, VNum 0)] 1 (VNum 2) [(2, VNum 3)] (Thrown (VStr "boom")))
    as (Hmap & Hfilter & Hfind).
  - reflexivity.
  - constructor; [|constructor]. exists (VNum 0). reflexivity.
  - reflexivity.
  - split; [exact Hmap|]. split; [exact Hfilter|]. apply Hfind.
    constructor; [|constructor]. exists (VNum 0). split; reflexivity.
Defined.

(** X14 at [[1, , 3]], [(x) => x] and the call-contexts [7] and
    [undefined]. *)
Lemma thisArg_without_effect_witness :
  (customMap (Fn (pure_fn keep)) (VNum 7)
     (start [Some (VNum 1); None; Some (VNum 3)])).1
  = (customMap (Fn (pure_fn keep)) VUndefined
       (start [Some (VNum 1); None; Some (VNum 3)])).1 ∧
  (customFilter (Fn (pure_fn keep)) (VNum 7)
     (start [Some (VNum 1); None; Some (VNum 3)])).1
  = (customFilter (Fn (pure_fn keep)) VUndefined
       (start [Some (VNum 1); None; Some (VNum 3)])).1 ∧
  (customFind (Fn (pure_fn keep)) (VNum 7)
     (start [Some (VNum 1); None; Some (VNum 3)])).1
  = (customFind (Fn (pure_fn keep)) VUndefined
       (start [Some (VNum 1); None; Some (VNum 3)])).1.
Proof.
  destruct (thisArg_without_effect (G:=unit) (pure_fn keep) (VNum 7)
              VUndefined (start [Some (VNum 1); None; Some (VNum 3)]))
    as ((Hmap & _) & (Hfilter & _) & (Hfind & _)).
  - intros ? ? ? ? ?. reflexivity.
  - split; [exact Hmap|]. split; [exact Hfilter|exact Hfind].
Defined.

(** X15 at [[1, 2, 3, 4, 5]] and the alternating callback. *)
Lemma customFilter_subsequence_witness :
  (Some ∘ VNum <$> [1; 3; 5]%num) `sublist_of` (Some ∘ VNum <$> [1; 2; 3; 4; 5]%num) ∧
  (VNum 1 = VUndefined ∨
   Some (VNum 1) ∈ (Some ∘ VNum <$> [1; 2; 3; 4; 5]%num : array)).
Proof.
  exact (customFilter_subsequence (G:=bool) (Fn toggle) VUndefined
           (Machine (Store (Some ∘ VNum <$> [1; 2; 3; 4; 5]%num) true) [])
           (λ _ _ _ _, eq_refl)).
Defined.

(** X16 at [[1, , 3]] and the alternating callback. *)
Lemma customMap_keeps_holes_witness :
  index_in 1 [Some (VBool true); None; Some (VBool false)]
  = index_in 1 [Some (VNum 1); None; Some (VNum 3)] ∧
  index_in 2 [Some (VBool true); None; Some (VBool false)]
  = index_in 2 [Some (VNum 1); None; Some (VNum 3)].
Proof.
  pose proof (customMap_keeps_holes (G:=bool) (Fn toggle) VUndefined
                (Machine (Store [Some (VNum 1); None; Some (VNum 3)] true) [])
                (λ _ _ _ _, eq_refl)) as H.
  split; [exact (H 1) | exact (H 2)].
Defined.


(** C4 as stated fails: on [new Array(4294967295)], an array of the
    greatest length, [customPush(1)] returns the old length and the length
    stays as it was. *)
Lemma customPush_at_max_length :
  length (new_Array (Z.to_nat max_length)) = Z.to_nat max_length ∧
  customPush [VNum 1] (start (new_Array (Z.to_nat max_length)))
  = (Normal (Z.to_nat max_length), start (new_Array (Z.to_nat max_length))).
Proof.
  assert (Hlen : length (new_Array (Z.to_nat max_length))
                 = Z.to_nat max_length) by apply length_replicate.
  split; [exact Hlen|]. unfold start.
  rewrite customPush_all, push_all_at_max_length
    by (rewrite Hlen, Z2Nat.id; unfold max_length; lia).
  by rewrite Hlen.
Qed.

(** C4 as amended, at [[1, 2, 3].customPush(4, 5)]. *)
Lemma customPush_append_witness :
  customPush [VNum 4; VNum 5] (start (Some ∘ VNum <$> [1; 2; 3]%num))
  = (Normal 5, start (Some ∘ VNum <$> [1; 2; 3; 4; 5]%num)).
Proof.
  destruct (proj1 (customPush_append (G:=unit) [VNum 4; VNum 5]
                     (Some ∘ VNum <$> [1; 2; 3]%num) () []))
    as (Hrun & _); [unfold max_length; simpl; lia|].
  exact Hrun.
Defined.

(** C6 at [[1, 2, 3].customMap({ toString() { a.length = 0; throw "boom"; } })]:
    the caller gets ["boom"], not a TypeError, and the array is empty. *)
Lemma hostile_object_not_rejected :
  customMap hostile_object VUndefined (start (Some ∘ VNum <$> [1; 2; 3]%num))
  = (Throw (Thrown (VStr "boom")), start []) ∧
  customFilter hostile_object VUndefined
    (start (Some ∘ VNum <$> [1; 2; 3]%num))
  = (Throw (Thrown (VStr "boom")), start []).
Proof. split; reflexivity. Qed.

(** X1 at [[1, 2].customPush(3, 4)] followed by [customPop()]. *)
Lemma customPush_then_customPop_witness :
  bind (customPush [VNum 3; VNum 4]) (λ _, customPop)
    (start (Some ∘ VNum <$> [1; 2]%num))
  = (Normal (VNum 4), start (Some ∘ VNum <$> [1; 2; 3]%num)).
Proof.
  assert (Hroom : (Z.of_nat (length (Some ∘ VNum <$> [1; 2]%num : array)
                             + length [VNum 3]) < max_length)%Z)
    by (unfold max_length; simpl; lia).
  exact (customPush_then_customPop (G:=unit) [VNum 3] (VNum 4)
           (Some ∘ VNum <$> [1; 2]%num) () [] Hroom).
Defined.

(** X2 at [[1, , ]]: the trailing hole comes back as a stored
    [undefined]. *)
Lemma customPop_then_customPush_witness :
  bind customPop (λ v, customPush [v]) (start [Some (VNum 1); None])
  = (Normal 2, start [Some (VNum 1); Some VUndefined]).
Proof.
  assert (Hlen : (Z.of_nat (length ([Some (VNum 1)] ++ [None] : array))
                  ≤ max_length)%Z)
    by (unfold max_length; simpl; lia).
  exact (proj1 (customPop_then_customPush (G:=unit) () [])
           [Some (VNum 1)] None Hlen).
Defined.

(** X17 at [[1, 2, 3]] and a plain object. *)
Lemma invalid_callback_rejected_witness :
  ∃ msg,
    customMap plain_object VUndefined (start (Some ∘ VNum <$> [1; 2; 3]%num))
    = (Throw (TypeError msg), start (Some ∘ VNum <$> [1; 2; 3]%num)) ∧
    customFilter plain_object VUndefined
      (start (Some ∘ VNum <$> [1; 2; 3]%num))
    = (Throw (TypeError msg), start (Some ∘ VNum <$> [1; 2; 3]%num)).
Proof.
  destruct (invalid_callback_rejected (G:=unit) plain_object VUndefined
              (start (Some ∘ VNum <$> [1; 2; 3]%num)))
    as (msg & Hmap & Hfilter & _).
  - discriminate.
  - intros h. split; [reflexivity|exact I].
  - exists msg. split; [exact Hmap|exact Hfilter].
Defined.
